(** * GasValuator: the contract pricing routine of PrototypePricingModel.py

    A shallow embedding of [price_contract], [months_between] and
    [calculate_value], with the properties of the valuation pass proved
    over it.

    Conventions of the embedding.
    - The main embedding computes with exact rationals ([Q]); equality of
      amounts is [Qeq] ([==]).  It shows what the program computes and in
      which order, not how the machine rounds.  Python's [float] is
      binary64: the module [Binary64] embeds the same lines over binary64
      floats, and what depends on rounding is settled there, by running
      it.
    - A date is the string the caller supplies.  The sort keys are compared
      as Python compares [str] values: lexicographically, character by
      character.
    - [datetime.strptime], the float formatting of f-strings and the fitted
      Prophet model are library code: they are parameters of the embedding,
      and the first and the last may raise.
    - An exception is a value of [exn]; the oracle queries of a run are
      collected in a log, in the order in which they are made.
    - The lists and dictionaries of a call are values in the main
      embedding.  Where it matters that they are objects, which a call
      could change, lines 57-99 are embedded over a store of objects
      ([price_contract_in]). *)

From Stdlib Require Import List Bool ZArith QArith Lia Lqa.
From Stdlib Require Import Ascii String DecimalString.
From Stdlib Require Import Sorting.Sorted Sorting.Permutation.
From Stdlib Require Floats.PrimFloat Floats.FloatOps Floats.SpecFloat.
From Stdlib Require Floats.FloatAxioms.
From Stdlib Require Numbers.Cyclic.Int63.Uint63.
Import ListNotations.

Local Open Scope Q_scope.

(** ** Python values *)

(** The caller's dictionaries [{'date': ..., 'volume': ...}]. *)
Record entry : Type := mkEntry { date : string; volume : Q }.

(** The value stored under ['type'] by lines 60 and 62. *)
Inductive kind : Type := injection | withdrawal.

(** The dictionaries built by lines 60 and 62:
    [{'date': ..., 'volume': ..., 'type': ...}]. *)
Record event : Type := mkEvent { entry_of :> entry; etype : kind }.

(** An exception.  Lines 83 and 91 raise [ValueError(msg)], and so does
    [strptime]; the library code behind the oracle may raise another class
    (an [AttributeError] when [model] is [None], for one). *)
Inductive exn : Type :=
| ValueError (msg : string)
| OtherError (name msg : string).

(** The class of an exception, which is what an [except] clause selects
    on. *)
Definition class_of (x : exn) : string :=
  match x with
  | ValueError _ => "ValueError"
  | OtherError name _ => name
  end.

Inductive result (A : Type) : Type :=
| Ok (a : A)
| Raise (e : exn).
Arguments Ok {A} a.
Arguments Raise {A} e.

(** ** Comparisons *)

(** [x < y] on floats, as a test. *)
Definition Qltb (x y : Q) : bool := negb (Qle_bool y x).

(** [a <= b] on sort keys: Python's sort only ever asks [b < a]. *)
Definition key_le (a b : string) : Prop := String.ltb b a = false.

(** ** [sorted] and [list.sort]

    Python guarantees that both are stable.  A stable sort has exactly one
    possible output, so the embedding may take any stable algorithm: it
    inserts each element in front of the sorted rest, after the elements
    whose key is strictly smaller. *)

Fixpoint insort {A : Type} (key : A -> string) (x : A) (l : list A) : list A :=
  match l with
  | [] => [x]
  | y :: r =>
      if String.ltb (key y) (key x) then y :: insort key x r
      else x :: y :: r
  end.

Definition sorted {A : Type} (l : list A) (key : A -> string) : list A :=
  fold_right (insort key) [] l.

(** ** Lines 57-63: the merged event list *)

Definition tag (k : kind) (x : entry) : event :=
  mkEvent (mkEntry (date x) (volume x)) k.

Definition all_events (injection_events withdrawal_events : list entry)
  : list event :=
  sorted (map (tag injection) (sorted injection_events date)
          ++ map (tag withdrawal) (sorted withdrawal_events date))
         (fun x : event => date x).

(** ** Computations that query the oracle and may raise

    A computation yields the dates it has asked the oracle about, in order,
    and either a value or the exception that ended it. *)

Definition comp (A : Type) : Type := list string * result A.

Definition ret {A : Type} (a : A) : comp A := ([], Ok a).

Definition raise {A : Type} (e : exn) : comp A := ([], Raise e).

Definition bind {A B : Type} (c : comp A) (k : A -> comp B) : comp B :=
  match c with
  | (log, Ok a) => let (log', r) := k a in ((log ++ log')%list, r)
  | (log, Raise e) => (log, Raise e)
  end.

Definition lift {A : Type} (r : result A) : comp A := ([], r).

Notation "x <- c ;; k" := (bind c (fun x => k))
  (at level 61, c at next level, right associativity).

(** The state of the pass: the three locals of lines 65-67. *)
Record state : Type := mkState {
  inventory : Q;
  net_value : Q;
  prev_date : option string
}.

Definition initial : state := mkState 0 0 None.

Section Valuation.

(** [datetime.strptime(s, "%Y-%m-%d")] as a proleptic Gregorian day
    number, or the exception it raises. *)
Variable strptime : string -> result Z.

(** What [get_price_estimate(model, d)] computes for the model of the call:
    the predicted price, or the exception pandas or Prophet raises. *)
Variable estimate : string -> result Q.

(** How an f-string prints a float. *)
Variable repr : Q -> string.

(** Lines 101-106. *)
Definition months_between (date_str1 date_str2 : string) : result Q :=
  match strptime date_str1 with
  | Raise e => Raise e
  | Ok d1 =>
      match strptime date_str2 with
      | Raise e => Raise e
      | Ok d2 =>
          let diff_days := (d2 - d1)%Z in
          let avg_days_per_month := 365.25 / 12 in
          Ok (inject_Z diff_days / avg_days_per_month)
      end
  end.

(** Lines 41-44, seen from the valuation: one query, logged. *)
Definition get_price_estimate (input_date : string) : comp Q :=
  ([input_date], estimate input_date).

Definition capacity_msg (volume max_storage : Q) : string :=
  ("Injection of " ++ repr volume ++ " exceeds max storage of "
     ++ repr max_storage ++ "!")%string.

Definition inventory_msg (volume inventory : Q) : string :=
  ("Withdraw " ++ repr volume ++ " but only " ++ repr inventory
     ++ " in storage!")%string.

Variables storage_monthly_fee injection_fee withdrawal_fee max_storage : Q.

(** Lines 74-78: the carrying cost since the previous event. *)
Definition charge_storage (st : state) (e : event) : comp state :=
  match prev_date st with
  | Some prev =>
      months_diff <- lift (months_between prev (date e)) ;;
      let storage_cost := inventory st * storage_monthly_fee * months_diff in
      ret (mkState (inventory st) (net_value st - storage_cost) (prev_date st))
  | None => ret st
  end.

(** Lines 80-95: the injection or the withdrawal itself. *)
Definition apply_event (st : state) (e : event) : comp state :=
  match etype e with
  | injection =>
      if Qltb max_storage (inventory st + volume e) then
        raise (ValueError (capacity_msg (volume e) max_storage))
      else
        price <- get_price_estimate (date e) ;;
        let nv := net_value st - price * volume e in
        let nv := nv - injection_fee * volume e in
        ret (mkState (inventory st + volume e) nv (prev_date st))
  | withdrawal =>
      if Qltb (inventory st) (volume e) then
        raise (ValueError (inventory_msg (volume e) (inventory st)))
      else
        price <- get_price_estimate (date e) ;;
        let nv := net_value st + price * volume e in
        let nv := nv - withdrawal_fee * volume e in
        ret (mkState (inventory st - volume e) nv (prev_date st))
  end.

(** Lines 69-97: the body of the loop. *)
Definition process_event (st : state) (e : event) : comp state :=
  st1 <- charge_storage st e ;;
  st2 <- apply_event st1 e ;;
  ret (mkState (inventory st2) (net_value st2) (Some (date e))).

(** The [for] loop of line 69, started in [st]. *)
Fixpoint event_loop (events : list event) (st : state) : comp state :=
  match events with
  | [] => ret st
  | e :: rest => st' <- process_event st e ;; event_loop rest st'
  end.

(** The rest of the call from inside the loop: the events still to come,
    then line 99. *)
Definition remainder (events : list event) (st : state) : comp Q :=
  st' <- event_loop events st ;; ret (net_value st').

(** The pass has reached the test of event [e]: the events [pre] before
    it have gone through, asking [log] and leaving [st], and the carrying
    cost up to the date of [e] has been charged. *)
Definition reached (inj wd : list entry) (pre : list event) (e : event)
           (post : list event) (log : list string) (st : state) : Prop :=
  all_events inj wd = (pre ++ e :: post)%list
  /\ event_loop pre initial = (log, Ok st)
  /\ exists st1, charge_storage st e = ([], Ok st1).

(** Lines 48-99. *)
Definition price_contract (injection_events withdrawal_events : list entry)
  : comp Q :=
  st <- event_loop (all_events injection_events withdrawal_events) initial ;;
  ret (net_value st).

End Valuation.

(** ** A concrete environment, for running the embedding

    [iso_strptime] accepts exactly the zero-padded form [YYYY-MM-DD] and
    numbers the days as [datetime.toordinal] does.  It stands in for
    [datetime.strptime] in the runs only, and it is stricter: Python also
    takes a month or a day of one digit, and words some of its errors
    differently.  On the dates of the runs the two agree, in the day number
    and in the exception. *)

Definition digit (c : ascii) : option Z :=
  let n := Z.of_N (N_of_ascii c) in
  if ((48 <=? n) && (n <=? 57))%Z then Some (n - 48)%Z else None.

Fixpoint digits (acc : Z) (l : list ascii) : option Z :=
  match l with
  | [] => Some acc
  | c :: r =>
      match digit c with
      | Some d => digits (10 * acc + d)%Z r
      | None => None
      end
  end.

Definition is_leap (y : Z) : bool :=
  ((y mod 4 =? 0) && (negb (y mod 100 =? 0) || (y mod 400 =? 0)))%Z.

Definition days_in_month (y m : Z) : Z :=
  (if m =? 2 then (if is_leap y then 29 else 28)
   else if (m =? 4) || (m =? 6) || (m =? 9) || (m =? 11) then 30
   else 31)%Z.

Definition toordinal (y m d : Z) : Z :=
  (let y' := if m <=? 2 then y - 1 else y in
   let era := y' / 400 in
   let yoe := y' - era * 400 in
   let mp := if 2 <? m then m - 3 else m + 9 in
   let doy := (153 * mp + 2) / 5 + d - 1 in
   let doe := yoe * 365 + yoe / 4 - yoe / 100 + doy in
   era * 146097 + doe - 305)%Z.

Definition bad_date (s : string) : exn :=
  ValueError ("time data '" ++ s ++ "' does not match format '%Y-%m-%d'")%string.

(** The year, the month and the day of a string of the form [YYYY-MM-DD]. *)
Definition iso_fields (s : string) : option (Z * Z * Z) :=
  match list_ascii_of_string s with
  | [y1; y2; y3; y4; s1; m1; m2; s2; d1; d2] =>
      if (Ascii.eqb s1 "-" && Ascii.eqb s2 "-")%bool then
        match digits 0 [y1; y2; y3; y4], digits 0 [m1; m2], digits 0 [d1; d2] with
        | Some y, Some m, Some d => Some (y, m, d)
        | _, _, _ => None
        end
      else None
  | _ => None
  end.

Definition valid_dateb (y m d : Z) : bool :=
  ((1 <=? y) && (1 <=? m) && (m <=? 12) && (1 <=? d)
   && (d <=? days_in_month y m))%Z.

Definition iso_strptime (s : string) : result Z :=
  match iso_fields s with
  | Some (y, m, d) =>
      if valid_dateb y m d then Ok (toordinal y m d) else Raise (bad_date s)
  | None => Raise (bad_date s)
  end.

(** A date of the calendar. *)
Definition valid_date (y m d : Z) : Prop :=
  (1 <= y /\ 1 <= m <= 12 /\ 1 <= d <= days_in_month y m)%Z.

(** The date [y1-m1-d1] comes before the date [y2-m2-d2]. *)
Definition before (y1 m1 d1 y2 m2 d2 : Z) : Prop :=
  (y1 < y2 \/ (y1 = y2 /\ (m1 < m2 \/ (m1 = m2 /\ d1 < d2))))%Z.

(** The day number in the year that starts in March: the days of the years
    before, the year and the month counted from March, the days of the
    months before. *)
Definition year_days (y : Z) : Z := (365 * y + y / 4 - y / 100 + y / 400)%Z.
Definition shifted_year (y m : Z) : Z := (if m <=? 2 then y - 1 else y)%Z.
Definition shifted_month (m : Z) : Z := (if 2 <? m then m - 3 else m + 9)%Z.
Definition days_before (mp : Z) : Z := ((153 * mp + 2) / 5)%Z.

(** A stub oracle: 2.00 on 2023-06-01, 3.00 on 2023-12-01, 1.00 elsewhere. *)
Definition stub_estimate (d : string) : result Q :=
  if String.eqb d "2023-06-01" then Ok 2
  else if String.eqb d "2023-12-01" then Ok 3
  else Ok 1.

(** The oracle of a call that leaves [model] at its default, [None]. *)
Definition no_model (d : string) : result Q :=
  Raise (OtherError "AttributeError"
                    "'NoneType' object has no attribute 'predict'").

(** A stand-in for float formatting: numerator and denominator. *)
Definition show_Z (z : Z) : string :=
  NilZero.string_of_int (Z.to_int z).

Definition stub_repr (q : Q) : string :=
  (show_Z (Qnum q) ++ "/" ++ show_Z (Zpos (Qden q)))%string.

(** The valuation in this environment. *)
Definition run_price_contract
           (storage_monthly_fee injection_fee withdrawal_fee max_storage : Q)
           (injection_events withdrawal_events : list entry) : comp Q :=
  price_contract iso_strptime stub_estimate stub_repr storage_monthly_fee
                 injection_fee withdrawal_fee max_storage
                 injection_events withdrawal_events.

(** The pass alone, and the state it leaves. *)
Definition run_event_loop
           (storage_monthly_fee injection_fee withdrawal_fee max_storage : Q)
           (events : list event) : comp state :=
  event_loop iso_strptime stub_estimate stub_repr storage_monthly_fee
             injection_fee withdrawal_fee max_storage events initial.

(** Sample schedules: 100 in on 1 June, 50 in on 1 July, 150 out on
    1 December. *)
Definition june : entry := mkEntry "2023-06-01" 100.
Definition july : entry := mkEntry "2023-07-01" 50.
Definition december : entry := mkEntry "2023-12-01" 150.

(** An injection of a negative volume, and the schedule with 151 out. *)
Definition minus_five : entry := mkEntry "2023-06-01" (-5).
Definition december_151 : entry := mkEntry "2023-12-01" 151.

(** An oracle that differs from the stub on a date no sample event has. *)
Definition other_estimate (d : string) : result Q :=
  if String.eqb d "2024-01-01" then Ok 9 else stub_estimate d.

(** The state after the injection of June, fees 0.02, 0.10 and 0.05. *)
Definition after_june : state :=
  mkState (0 + 100) (0 - 2 * 100 - 0.10 * 100) (Some "2023-06-01"%string).

(** The state after the injections of June and July, same fees. *)
Definition after_july : state :=
  Eval vm_compute in
    match run_event_loop 0.02 0.10 0.05 150
                         [tag injection june; tag injection july] with
    | (_, Ok st) => st
    | (_, Raise _) => initial
    end.

(** ** Vocabulary of the properties *)

(** Ascending order of the keys. *)
Definition by_key {A : Type} (key : A -> string) (a b : A) : Prop :=
  key_le (key a) (key b).

(** The elements whose key is [d], in the order of the list. *)
Definition keyed {A : Type} (key : A -> string) (d : string) (l : list A)
  : list A :=
  filter (fun a => String.eqb (key a) d) l.

(** The change of inventory an event asks for. *)
Definition delta (e : event) : Q :=
  match etype e with
  | injection => volume e
  | withdrawal => - volume e
  end.

(** The price the oracle answers for a date (0 stands in when it raises). *)
Definition price_of (estimate : string -> result Q) (d : string) : Q :=
  match estimate d with
  | Ok price => price
  | Raise _ => 0
  end.

Section Accounts.

Variable strptime : string -> result Z.
Variable estimate : string -> result Q.
Variable repr : Q -> string.
Variables storage_monthly_fee injection_fee withdrawal_fee max_storage : Q.

(** The days from one date to the other, over 365.25/12. *)
Definition elapsed_months (previous current : string) : option Q :=
  match strptime previous, strptime current with
  | Ok d1, Ok d2 => Some (inject_Z (d2 - d1) / (365.25 / 12))
  | _, _ => None
  end.

(** The carrying cost of the events that follow an event dated [previous],
    [level] being the inventory held since then: each interval between two
    consecutive events is charged at the level held during it. *)
Fixpoint carrying_cost (level : Q) (previous : string) (events : list event)
  : option Q :=
  match events with
  | [] => Some 0
  | e :: rest =>
      match elapsed_months previous (date e),
            carrying_cost (level + delta e) (date e) rest with
      | Some months, Some later =>
          Some (level * storage_monthly_fee * months + later)
      | _, _ => None
      end
  end.

(** Nothing is charged before the first event. *)
Definition total_carrying_cost (events : list event) : option Q :=
  match events with
  | [] => Some 0
  | e :: rest => carrying_cost (delta e) (date e) rest
  end.

(** The cash paid or received at one event, fee included. *)
Definition cash_flow (e : event) : Q :=
  match etype e with
  | injection =>
      - (price_of estimate (date e) * volume e) - injection_fee * volume e
  | withdrawal =>
      price_of estimate (date e) * volume e - withdrawal_fee * volume e
  end.

Definition total_cash_flow (events : list event) : Q :=
  fold_right (fun e acc => cash_flow e + acc) 0 events.

(** The oracle price at the date times the volume, summed over a list. *)
Definition traded_value (l : list entry) : Q :=
  fold_right (fun x acc => price_of estimate (date x) * volume x + acc) 0 l.

Definition total_volume (l : list entry) : Q :=
  fold_right (fun x acc => volume x + acc) 0 l.

(** The test that guards an event, read in the state it is applied to. *)
Definition violates (st : state) (e : event) : bool :=
  match etype e with
  | injection => Qltb max_storage (inventory st + volume e)
  | withdrawal => Qltb (inventory st) (volume e)
  end.

(** What the caller is told when the test fails. *)
Definition diagnostic (st : state) (e : event) : exn :=
  match etype e with
  | injection => ValueError (capacity_msg repr (volume e) max_storage)
  | withdrawal => ValueError (inventory_msg repr (volume e) (inventory st))
  end.

(** The state an event leaves behind when its test passes and the oracle
    answers [price]. *)
Definition applied (price : Q) (st : state) (e : event) : state :=
  match etype e with
  | injection =>
      mkState (inventory st + volume e)
              (net_value st - price * volume e - injection_fee * volume e)
              (prev_date st)
  | withdrawal =>
      mkState (inventory st - volume e)
              (net_value st + price * volume e - withdrawal_fee * volume e)
              (prev_date st)
  end.

End Accounts.

(** [sub] occurs in [s]. *)
Definition occurs_in (sub s : string) : Prop :=
  exists before after, s = (before ++ sub ++ after)%string.

(** ** Lines 167-196: the button of the window *)

(** The text of the eight entry fields when the button is pressed. *)
Record fields : Type := mkFields {
  inj_date_entry : string;
  inj_volume_entry : string;
  wth_date_entry : string;
  wth_volume_entry : string;
  storage_fee_entry : string;
  injection_fee_entry : string;
  withdrawal_fee_entry : string;
  max_storage_entry : string
}.

(** The texts lines 120-157 put in the fields when the window opens. *)
Definition default_fields : fields :=
  mkFields "2023-06-01" "200000" "2023-12-01" "200000"
           "0.02" "0.10" "0.05" "600000".

Section Window.

Variable strptime : string -> result Z.
Variable estimate : string -> result Q.
Variable repr : Q -> string.

(** [float(text)], or the exception it raises. *)
Variable float : string -> result Q.

(** How [f"{val:,.2f}"] prints the value. *)
Variable money : Q -> string.

(** Lines 167-196.  The value is the text handed to [result_label.config];
    an exception is one that leaves the method, the label untouched. *)
Definition calculate_value (self : fields) : comp string :=
  let inj_date := inj_date_entry self in
  inj_volume <- lift (float (inj_volume_entry self)) ;;
  let wth_date := wth_date_entry self in
  wth_volume <- lift (float (wth_volume_entry self)) ;;
  storage_fee <- lift (float (storage_fee_entry self)) ;;
  inj_fee <- lift (float (injection_fee_entry self)) ;;
  wth_fee <- lift (float (withdrawal_fee_entry self)) ;;
  max_sto <- lift (float (max_storage_entry self)) ;;
  let injection_events := [mkEntry inj_date inj_volume] in
  let withdrawal_events := [mkEntry wth_date wth_volume] in
  match price_contract strptime estimate repr storage_fee inj_fee wth_fee
                       max_sto injection_events withdrawal_events with
  | (log, Ok val) => (log, Ok ("Contract Value: $" ++ money val)%string)
  | (log, Raise (ValueError ve)) => (log, Ok ("Error: " ++ ve)%string)
  | (log, Raise other) => (log, Raise other)
  end.

End Window.

(** The number texts of the window, in the order lines 170-177 convert
    them. *)
Definition number_entries (self : fields) : list string :=
  [inj_volume_entry self; wth_volume_entry self; storage_fee_entry self;
   injection_fee_entry self; withdrawal_fee_entry self; max_storage_entry self].

(** The first exception in a row of conversions. *)
Fixpoint first_raised (l : list (result Q)) : option exn :=
  match l with
  | [] => None
  | Ok _ :: r => first_raised r
  | Raise x :: _ => Some x
  end.

(** A stand-in for [float]: digits, with at most one point among them. *)
Fixpoint split_point (l : list ascii) : list ascii * option (list ascii) :=
  match l with
  | [] => ([], None)
  | c :: r =>
      if Ascii.eqb c "." then ([], Some r)
      else let (whole, rest) := split_point r in (c :: whole, rest)
  end.

Definition bad_float (s : string) : exn :=
  ValueError ("could not convert string to float: '" ++ s ++ "'")%string.

Definition stub_float (s : string) : result Q :=
  match split_point (list_ascii_of_string s) with
  | ([], None) => Raise (bad_float s)
  | (whole, None) =>
      match digits 0 whole with
      | Some n => Ok (inject_Z n)
      | None => Raise (bad_float s)
      end
  | ([], Some []) => Raise (bad_float s)
  | (whole, Some part) =>
      match digits 0 (whole ++ part) with
      | Some n => Ok (inject_Z n / inject_Z (10 ^ Z.of_nat (List.length part)))
      | None => Raise (bad_float s)
      end
  end.

(** The button in the sample environment. *)
Definition run_calculate_value (self : fields) : comp string :=
  calculate_value iso_strptime stub_estimate stub_repr stub_float stub_repr self.

(** [strptime] numbers the dates of the listed entries in the order of the
    sort keys: of two dates it accepts, the one with the smaller key is not
    the later day. *)
Definition in_calendar_order (strptime : string -> result Z) (l : list entry)
  : Prop :=
  forall (x y : entry) (nx ny : Z),
    In x l -> In y l ->
    strptime (date x) = Ok nx -> strptime (date y) = Ok ny ->
    key_le (date x) (date y) -> (nx <= ny)%Z.

(** What lines 194-196 make of the outcome of the valuation. *)
Definition shown (money : Q -> string) (c : comp Q) : comp string :=
  match c with
  | (log, Ok val) => (log, Ok ("Contract Value: $" ++ money val)%string)
  | (log, Raise (ValueError ve)) => (log, Ok ("Error: " ++ ve)%string)
  | (log, Raise other) => (log, Raise other)
  end.

(** The numbers of the window have all been read. *)
Definition numbers_read (float : string -> result Q) (self : fields)
           (inj_volume wth_volume storage_fee inj_fee wth_fee max_sto : Q)
  : Prop :=
  map float (number_entries self)
  = [Ok inj_volume; Ok wth_volume; Ok storage_fee; Ok inj_fee; Ok wth_fee;
     Ok max_sto].

(** More samples: a date [iso_strptime] rejects, an early withdrawal, and
    windows with the dates exchanged, a number that is none, a small store. *)
Definition not_a_date : entry := mkEntry "2023-07-xx" 50.
Definition early_withdrawal : entry := mkEntry "2023-06-01" 10.

Definition exchanged_fields : fields :=
  mkFields "2023-12-01" "200000" "2023-06-01" "200000"
           "0.02" "0.10" "0.05" "600000".

Definition misprinted_fields : fields :=
  mkFields "2023-06-01" "200000" "2023-12-01" "lots"
           "0.02" "ten" "0.05" "600000".

Definition small_store_fields : fields :=
  mkFields "2023-06-01" "200000" "2023-12-01" "200000"
           "0.02" "0.10" "0.05" "100".

(** ** The objects of a call

    [price_contract] is handed two list objects whose items are
    dictionaries, and it builds objects of its own: the list [all_events],
    the two lists [sorted] returns and one dictionary for each event.  To
    say what a call does to the objects it finds, lines 57-99 are embedded
    once more over a store of objects, with references where Python has
    them.  A string or a float is immutable and is held by value. *)

(** A reference: the address of an object in the store. *)
Definition loc : Type := nat.

(** A list object holds references; a dictionary holds what is under
    ['date'] and ['volume'], and what is under ['type'] if the key is
    there. *)
Inductive object : Type :=
| PyList (items : list loc)
| PyDict (d : entry) (type : option kind).

(** The store: the object at address [l] is the [l]-th; a new object gets
    the next address. *)
Definition store : Type := list object.

Fixpoint update (h : store) (l : loc) (o : object) : store :=
  match h, l with
  | [], _ => []
  | _ :: r, O => o :: r
  | x :: r, S l' => x :: update r l' o
  end.

(** A computation over the store: it yields the store it leaves together
    with its queries and its outcome. *)
Definition prog (A : Type) : Type := store -> store * comp A.

Definition pret {A : Type} (a : A) : prog A := fun h => (h, ret a).

Definition pbind {A B : Type} (p : prog A) (k : A -> prog B) : prog B :=
  fun h =>
    match p h with
    | (h1, (log, Ok a)) =>
        match k a h1 with
        | (h2, (log', r)) => (h2, ((log ++ log')%list, r))
        end
    | (h1, (log, Raise x)) => (h1, (log, Raise x))
    end.

Notation "x <~ p ;; k" := (pbind p (fun x => k))
  (at level 61, p at next level, right associativity).

(** A computation that does not touch the store. *)
Definition run {A : Type} (c : comp A) : prog A := fun h => (h, c).

(** What Python raises when an object is not of the kind an operation
    needs, or a key is not there. *)
Definition type_error : exn :=
  OtherError "TypeError" "object is not subscriptable".
Definition key_error : exn := OtherError "KeyError" "'type'".

(** A new object. *)
Definition new (o : object) : prog loc :=
  fun h => ((h ++ [o])%list, ret (List.length h)).

(** The items of a list object. *)
Definition get_list (l : loc) : prog (list loc) :=
  fun h =>
    match nth_error h l with
    | Some (PyList items) => (h, ret items)
    | _ => (h, raise type_error)
    end.

(** What a dictionary holds. *)
Definition get_dict (l : loc) : prog (entry * option kind) :=
  fun h =>
    match nth_error h l with
    | Some (PyDict d type) => (h, ret (d, type))
    | _ => (h, raise type_error)
    end.

(** The list object at [l] gets other items: the one write there is. *)
Definition set_list (l : loc) (items : list loc) : prog unit :=
  fun h =>
    match nth_error h l with
    | Some (PyList _) => (update h l (PyList items), ret tt)
    | _ => (h, raise type_error)
    end.

(** The key function [lambda x: x['date']] on each item, in order. *)
Fixpoint keys (refs : list loc) : prog (list (loc * string)) :=
  match refs with
  | [] => pret []
  | r :: rest =>
      d <~ get_dict r ;;
      ks <~ keys rest ;;
      pret ((r, date (fst d)) :: ks)
  end.

(** [sorted(l, key=lambda x: x['date'])]: a new list object with the items
    of [l] in the order of their keys. *)
Definition sorted_in (l : loc) : prog loc :=
  refs <~ get_list l ;;
  ks <~ keys refs ;;
  new (PyList (map fst (sorted ks snd))).

(** [l.sort(key=lambda x: x['date'])]: the list object itself is changed. *)
Definition sort_in (l : loc) : prog unit :=
  refs <~ get_list l ;;
  ks <~ keys refs ;;
  set_list l (map fst (sorted ks snd)).

(** [l.append(r)]. *)
Definition append_in (l : loc) (r : loc) : prog unit :=
  items <~ get_list l ;;
  set_list l (items ++ [r]).

(** Lines 59-60 and 61-62: for each item, a new dictionary with its date,
    its volume and the type, appended to [all_events]. *)
Fixpoint append_events (all_events : loc) (k : kind) (refs : list loc)
  : prog unit :=
  match refs with
  | [] => pret tt
  | r :: rest =>
      d <~ get_dict r ;;
      ev <~ new (PyDict (mkEntry (date (fst d)) (volume (fst d))) (Some k)) ;;
      _ <~ append_in all_events ev ;;
      append_events all_events k rest
  end.

Section Objects.

Variable strptime : string -> result Z.
Variable estimate : string -> result Q.
Variable repr : Q -> string.
Variables storage_monthly_fee injection_fee withdrawal_fee max_storage : Q.

(** Lines 69-97 over the items of [all_events]: the three entries of each
    dictionary are read, then the event is processed. *)
Fixpoint pass_in (refs : list loc) (st : state) : prog state :=
  match refs with
  | [] => pret st
  | r :: rest =>
      d <~ get_dict r ;;
      match snd d with
      | Some k =>
          st' <~ run (process_event strptime estimate repr storage_monthly_fee
                                    injection_fee withdrawal_fee max_storage
                                    st (mkEvent (fst d) k)) ;;
          pass_in rest st'
      | None => run (raise key_error)
      end
  end.

(** Lines 48-99, with the two arguments as references. *)
Definition price_contract_in (injection_events withdrawal_events : loc)
  : prog Q :=
  all_events <~ new (PyList []) ;;
  injections <~ sorted_in injection_events ;;
  refs <~ get_list injections ;;
  _ <~ append_events all_events injection refs ;;
  withdrawals <~ sorted_in withdrawal_events ;;
  refs <~ get_list withdrawals ;;
  _ <~ append_events all_events withdrawal refs ;;
  _ <~ sort_in all_events ;;
  refs <~ get_list all_events ;;
  st <~ pass_in refs initial ;;
  pret (net_value st).

End Objects.

(** The dictionary at [r] holds the date and the volume of [x]. *)
Definition dict_at (h : store) (r : loc) (x : entry) : Prop :=
  exists type, nth_error h r = Some (PyDict x type).

(** The list object at [l] lists dictionaries that hold [xs], in order. *)
Definition list_at (h : store) (l : loc) (xs : list entry) : Prop :=
  exists refs,
    nth_error h l = Some (PyList refs) /\ Forall2 (dict_at h) refs xs.

(** Every object of [h] is in [h'], at its address and as it was. *)
Definition preserved (h h' : store) : Prop :=
  forall (l : loc) (o : object), nth_error h l = Some o -> nth_error h' l = Some o.

(** Every object but the one at [a] is where it was, as it was. *)
Definition apart_from (a : loc) (h h' : store) : Prop :=
  forall (l : loc) (o : object),
    l <> a -> nth_error h l = Some o -> nth_error h' l = Some o.

(** The dictionary at [r] is the one lines 60 and 62 build for [e]. *)
Definition event_at (h : store) (r : loc) (e : event) : Prop :=
  nth_error h r = Some (PyDict (entry_of e) (Some (etype e))).

(** A store for running it: the two lists of the sample schedule, with the
    dictionary of July listed before the one of June. *)
Definition sample_store : store :=
  [PyDict june None; PyDict july None; PyDict december None;
   PyList [1; 0]%nat; PyList [2]%nat].

(** Another store with the same two schedules: the lists come first, and
    one dictionary has a ['type'] already. *)
Definition other_store : store :=
  [PyList [3; 2]%nat; PyList [4]%nat;
   PyDict june None; PyDict july (Some withdrawal); PyDict december None].

(** ** The arithmetic of the machine

    The definitions above compute with exact rationals.  The program
    computes with Python's [float], which is IEEE 754 binary64: every sum,
    difference, product and quotient is rounded to the nearest float, ties
    to even.  The floats of the kernel are the same numbers with the same
    rounding, so the module below embeds lines 57-106 once more, operation
    for operation, over them.  It is there to be run: what depends on
    rounding is settled by computing with it. *)

Module Binary64.

Import PrimFloat.
Local Open Scope float_scope.

Record entry : Type := mkEntry { date : string; volume : float }.

Record event : Type := mkEvent { entry_of :> entry; etype : kind }.

(** Lines 57-63. *)
Definition tag (k : kind) (x : entry) : event :=
  mkEvent (mkEntry (date x) (volume x)) k.

Definition all_events (injection_events withdrawal_events : list entry)
  : list event :=
  sorted (map (tag injection) (sorted injection_events date)
          ++ map (tag withdrawal) (sorted withdrawal_events date))
         (fun x : event => date x).

(** Lines 65-67. *)
Record state : Type := mkState {
  inventory : float;
  net_value : float;
  prev_date : option string
}.

Definition initial : state := mkState 0 0 None.

(** The float of an [int], as true division takes it: exact below 2^53,
    which every difference of two day numbers is. *)
Definition of_int (z : Z) : float :=
  if (z <? 0)%Z then - of_uint63 (Uint63.of_Z (- z))
  else of_uint63 (Uint63.of_Z z).

Section Valuation.

Variable strptime : string -> result Z.
Variable estimate : string -> result float.
Variable repr : float -> string.

(** Lines 101-106. *)
Definition months_between (date_str1 date_str2 : string) : result float :=
  match strptime date_str1 with
  | Raise e => Raise e
  | Ok d1 =>
      match strptime date_str2 with
      | Raise e => Raise e
      | Ok d2 =>
          let diff_days := (d2 - d1)%Z in
          let avg_days_per_month := 365.25 / 12 in
          Ok (of_int diff_days / avg_days_per_month)
      end
  end.

(** Lines 41-44, seen from the valuation. *)
Definition get_price_estimate (input_date : string) : comp float :=
  ([input_date], estimate input_date).

Definition capacity_msg (volume max_storage : float) : string :=
  ("Injection of " ++ repr volume ++ " exceeds max storage of "
     ++ repr max_storage ++ "!")%string.

Definition inventory_msg (volume inventory : float) : string :=
  ("Withdraw " ++ repr volume ++ " but only " ++ repr inventory
     ++ " in storage!")%string.

Variables storage_monthly_fee injection_fee withdrawal_fee max_storage : float.

(** Lines 74-78. *)
Definition charge_storage (st : state) (e : event) : comp state :=
  match prev_date st with
  | Some prev =>
      months_diff <- lift (months_between prev (date e)) ;;
      let storage_cost := inventory st * storage_monthly_fee * months_diff in
      ret (mkState (inventory st) (net_value st - storage_cost) (prev_date st))
  | None => ret st
  end.

(** Lines 80-95. *)
Definition apply_event (st : state) (e : event) : comp state :=
  match etype e with
  | injection =>
      if max_storage <? inventory st + volume e then
        raise (ValueError (capacity_msg (volume e) max_storage))
      else
        price <- get_price_estimate (date e) ;;
        let nv := net_value st - price * volume e in
        let nv := nv - injection_fee * volume e in
        ret (mkState (inventory st + volume e) nv (prev_date st))
  | withdrawal =>
      if inventory st <? volume e then
        raise (ValueError (inventory_msg (volume e) (inventory st)))
      else
        price <- get_price_estimate (date e) ;;
        let nv := net_value st + price * volume e in
        let nv := nv - withdrawal_fee * volume e in
        ret (mkState (inventory st - volume e) nv (prev_date st))
  end.

(** Lines 69-97. *)
Definition process_event (st : state) (e : event) : comp state :=
  st1 <- charge_storage st e ;;
  st2 <- apply_event st1 e ;;
  ret (mkState (inventory st2) (net_value st2) (Some (date e))).

Fixpoint event_loop (events : list event) (st : state) : comp state :=
  match events with
  | [] => ret st
  | e :: rest => st' <- process_event st e ;; event_loop rest st'
  end.

(** The pass has reached the test of event [e], as in the exact
    embedding. *)
Definition reached (inj wd : list entry) (pre : list event) (e : event)
           (post : list event) (log : list string) (st : state) : Prop :=
  all_events inj wd = (pre ++ e :: post)%list
  /\ event_loop pre initial = (log, Ok st)
  /\ exists st1, charge_storage st e = ([], Ok st1).

(** Lines 48-99. *)
Definition price_contract (injection_events withdrawal_events : list entry)
  : comp float :=
  st <- event_loop (all_events injection_events withdrawal_events) initial ;;
  ret (net_value st).

End Valuation.

(** The number a float stands for, in lowest terms: none for an infinity
    or a NaN. *)
Definition value_of (x : float) : option Q :=
  match FloatOps.Prim2SF x with
  | SpecFloat.S754_zero _ => Some 0%Q
  | SpecFloat.S754_finite s m e =>
      Some (Qred (inject_Z (if s then Z.neg m else Z.pos m) * 2 ^ e))%Q
  | SpecFloat.S754_infinity _ => None
  | SpecFloat.S754_nan => None
  end.

(** The same number in the exact embedding (0 stands in for none). *)
Definition exactly (x : float) : Q :=
  match value_of x with
  | Some q => q
  | None => 0%Q
  end.

(** The sum over a list of price times volume, added up from the left as
    Python's [sum] does; and the sum of the volumes. *)
Definition traded_value (estimate : string -> result float) (l : list entry)
  : float :=
  fold_left (fun acc x =>
               match estimate (date x) with
               | Ok price => acc + price * volume x
               | Raise _ => acc
               end) l 0.

Definition total_volume (l : list entry) : float :=
  fold_left (fun acc x => acc + volume x) l 0.

(** *** An environment for running it *)

(** An oracle that prices every date at 1.1: the float nearest to 11/10,
    which is what Python reads [1.1] as. *)
Definition flat_estimate (d : string) : result float := Ok (11 / 10).

(** A stand-in for float formatting: mantissa and binary exponent. *)
Definition stub_repr (x : float) : string :=
  match FloatOps.Prim2SF x with
  | SpecFloat.S754_zero _ => "0"
  | SpecFloat.S754_infinity s => if s then "-inf" else "inf"
  | SpecFloat.S754_nan => "nan"
  | SpecFloat.S754_finite s m e =>
      (show_Z (if s then Z.neg m else Z.pos m) ++ "p" ++ show_Z e)%string
  end.

(** A call without fees: [price_contract(inj, wd, model, 0.0, 0.0, 0.0,
    max_storage)]. *)
Definition run_without_fees (max_storage : float)
           (injection_events withdrawal_events : list entry) : comp float :=
  price_contract iso_strptime flat_estimate stub_repr 0 0 0 max_storage
                 injection_events withdrawal_events.

(** The pass of such a call alone, and the state it leaves. *)
Definition pass_without_fees (max_storage : float)
           (injection_events withdrawal_events : list entry) : comp state :=
  event_loop iso_strptime flat_estimate stub_repr 0 0 0 max_storage
             (all_events injection_events withdrawal_events) initial.

(** A store of 600000 filled to 599999 in June, and three ways to top it
    up in July: with 1, with 1 + 2^-36 and with 2. *)
Definition capacity : float := 600000.
Definition nearly_full : entry := mkEntry "2023-06-01" 599999.
Definition one_more : entry := mkEntry "2023-07-01" 1.
Definition a_bit_more : entry := mkEntry "2023-07-01" (1 + 0x1p-36).
Definition two_more : entry := mkEntry "2023-07-01" 2.

(** The state after the injection of June, without fees. *)
Definition after_nearly_full : state :=
  mkState (0 + 599999) (0 - 11 / 10 * 599999 - 0 * 599999)
          (Some "2023-06-01"%string).

(** 150 in, 100 out, 50 in, 100 out. *)
Definition in_june : entry := mkEntry "2023-06-01" 150.
Definition out_july : entry := mkEntry "2023-07-01" 100.
Definition in_august : entry := mkEntry "2023-08-01" 50.
Definition out_december : entry := mkEntry "2023-12-01" 100.

End Binary64.

Coercion Binary64.entry_of : Binary64.event >-> Binary64.entry.

(** The schedule and the oracle of a binary64 run, taken to the exact
    embedding: every float becomes the rational it stands for. *)
Definition exact_entry (x : Binary64.entry) : entry :=
  mkEntry (Binary64.date x) (Binary64.exactly (Binary64.volume x)).

Definition exact_estimate (estimate : string -> result PrimFloat.float)
           (d : string) : result Q :=
  match estimate d with
  | Ok price => Ok (Binary64.exactly price)
  | Raise x => Raise x
  end.

(** * Properties *)

(** ** The order of the sort keys *)

Module KeyOrder.

Lemma ascii_compare_refl (c : ascii) : Ascii.compare c c = Eq.
Proof. unfold Ascii.compare. apply N.compare_refl. Qed.

Lemma compare_refl (s : string) : String.compare s s = Eq.
Proof.
  induction s as [|c s IH]; simpl; [reflexivity|].
  now rewrite ascii_compare_refl.
Qed.

Lemma ltb_irrefl (s : string) : String.ltb s s = false.
Proof. unfold String.ltb. now rewrite compare_refl. Qed.

(** [compare] never answers [Gt] along a chain that never does. *)
Lemma compare_not_gt_trans (a b c : string) :
  String.compare a b <> Gt -> String.compare b c <> Gt ->
  String.compare a c <> Gt.
Proof.
  revert b c.
  induction a as [|x a IH]; intros [|y b] [|z c]; simpl; try congruence.
  unfold Ascii.compare.
  destruct (N.compare_spec (N_of_ascii x) (N_of_ascii y)) as [Exy|Lxy|Gxy];
    destruct (N.compare_spec (N_of_ascii y) (N_of_ascii z)) as [Eyz|Lyz|Gyz];
    destruct (N.compare_spec (N_of_ascii x) (N_of_ascii z)) as [Exz|Lxz|Gxz];
    try congruence; try lia.
  apply IH.
Qed.

Lemma ltb_false_iff (a b : string) :
  String.ltb b a = false <-> String.compare a b <> Gt.
Proof.
  unfold String.ltb. rewrite (String.compare_antisym a b).
  destruct (String.compare b a); simpl; intuition congruence.
Qed.

Lemma le_refl (a : string) : key_le a a.
Proof. apply ltb_irrefl. Qed.

Lemma le_trans (a b c : string) : key_le a b -> key_le b c -> key_le a c.
Proof. unfold key_le. rewrite !ltb_false_iff. apply compare_not_gt_trans. Qed.

Lemma lt_le (a b : string) : String.ltb a b = true -> key_le a b.
Proof.
  unfold key_le, String.ltb. rewrite (String.compare_antisym a b).
  destruct (String.compare b a); simpl; congruence.
Qed.

Lemma le_antisym (a b : string) : key_le a b -> key_le b a -> a = b.
Proof.
  unfold key_le, String.ltb. intros Hab Hba.
  apply String.compare_eq_iff.
  rewrite (String.compare_antisym a b) in Hba |- *.
  destruct (String.compare b a); simpl in *; congruence.
Qed.

End KeyOrder.

(** ** Zero-padded dates

    On strings of the form [YYYY-MM-DD] the order of the sort keys is the
    order of the calendar. *)

Module IsoDates.

Local Open Scope Z_scope.

Lemma valid_dateb_spec (y m d : Z) : valid_dateb y m d = true <-> valid_date y m d.
Proof.
  unfold valid_dateb, valid_date.
  rewrite !andb_true_iff, !Z.leb_le. tauto.
Qed.

Lemma month_cases (m : Z) : 1 <= m <= 12 ->
  m = 1 \/ m = 2 \/ m = 3 \/ m = 4 \/ m = 5 \/ m = 6 \/ m = 7 \/ m = 8 \/ m = 9 \/ m = 10 \/ m = 11 \/ m = 12.
Proof. lia. Qed.

Lemma days_in_month_bounds (y m : Z) : 28 <= days_in_month y m <= 31.
Proof.
  unfold days_in_month.
  destruct (m =? 2); [destruct (is_leap y); lia|].
  destruct ((m =? 4) || (m =? 6) || (m =? 9) || (m =? 11))%bool; lia.
Qed.

Lemma february (y : Z) : days_in_month y 2 = 28 \/ (days_in_month y 2 = 29 /\ y mod 4 = 0 /\ (y mod 100 <> 0 \/ y mod 400 = 0)).
Proof.
  unfold days_in_month, is_leap. cbn [Z.eqb Pos.eqb].
  destruct (Z.eqb_spec (y mod 4) 0); cbn [andb]; [|now left].
  destruct (Z.eqb_spec (y mod 100) 0); cbn [negb orb].
  - destruct (Z.eqb_spec (y mod 400) 0); [right|left]; auto.
  - right; auto.
Qed.


Lemma toordinal_closed (y m d : Z) : 1 <= y -> 1 <= m <= 12 ->
  toordinal y m d =
  year_days (if m <=? 2 then y - 1 else y) + (153 * (if 2 <? m then m - 3 else m + 9) + 2) / 5 + d - 306.
Proof.
  intros Hy Hm. unfold toordinal, year_days. cbv zeta.
  set (y' := if m <=? 2 then y - 1 else y).
  assert (0 <= y') by (unfold y'; destruct (m <=? 2); lia).
  set (mp := if 2 <? m then m - 3 else m + 9).
  generalize ((153 * mp + 2) / 5). intro g.
  Z.div_mod_to_equations; lia.
Qed.

Lemma year_days_step (y : Z) : 0 <= y ->
  year_days (y + 1) - year_days y = 365 + (if is_leap (y + 1) then 1 else 0).
Proof.
  intro Hy. unfold year_days, is_leap.
  destruct (Z.eqb_spec ((y + 1) mod 4) 0); cbn [andb].
  - destruct (Z.eqb_spec ((y + 1) mod 100) 0); cbn [negb orb].
    + destruct (Z.eqb_spec ((y + 1) mod 400) 0); Z.div_mod_to_equations; lia.
    + Z.div_mod_to_equations; lia.
  - Z.div_mod_to_equations; lia.
Qed.

Lemma year_days_mono (y1 y2 : Z) : 0 <= y1 <= y2 -> year_days y1 <= year_days y2.
Proof. intro H. unfold year_days. Z.div_mod_to_equations. lia. Qed.


Lemma toordinal_shifted (y m d : Z) : 1 <= y -> 1 <= m <= 12 ->
  toordinal y m d = year_days (shifted_year y m) + days_before (shifted_month m) + d - 306.
Proof. apply toordinal_closed. Qed.

(** Within one year that starts in March the day number stays below the
    length of that year. *)
Ltac months_done :=
  unfold shifted_year, shifted_month, days_before, days_in_month in *;
  cbn [Z.leb Z.ltb Z.eqb Z.compare Pos.compare Pos.compare_cont Pos.eqb
       orb andb negb CompOpp] in *.

Lemma day_of_shifted_year (y m d : Z) : valid_date y m d ->
  1 <= days_before (shifted_month m) + d
    <= 365 + (if is_leap (shifted_year y m + 1) then 1 else 0).
Proof.
  intros (Hy & Hm & Hd).
  destruct (month_cases m Hm) as [->|[->|[->|[->|[->|[->|[->|[->|[->|[->|[->| ->]]]]]]]]]]];
    months_done.
  2: replace (y - 1 + 1) with y by lia; destruct (is_leap y);
      Z.div_mod_to_equations; lia.
  all: match goal with |- context [is_leap ?t] => destruct (is_leap t) end;
    Z.div_mod_to_equations; lia.
Qed.

(** Each month starts after the one before it has ended. *)
Lemma month_after_month (y m1 d1 m2 : Z) :
  valid_date y m1 d1 -> 1 <= m2 <= 12 ->
  shifted_month m1 < shifted_month m2 ->
  days_before (shifted_month m1) + d1 <= days_before (shifted_month m2).
Proof.
  intros (Hy & Hm1 & Hd) Hm2 Hlt.
  destruct (month_cases m1 Hm1) as [->|[->|[->|[->|[->|[->|[->|[->|[->|[->|[->| ->]]]]]]]]]]];
    destruct (month_cases m2 Hm2) as [->|[->|[->|[->|[->|[->|[->|[->|[->|[->|[->| ->]]]]]]]]]]];
    months_done; try lia;
    try (Z.div_mod_to_equations; lia).
Qed.


Lemma before_shifted (y1 m1 d1 y2 m2 d2 : Z) :
  1 <= m1 <= 12 -> 1 <= m2 <= 12 ->
  before y1 m1 d1 y2 m2 d2 ->
  before (shifted_year y1 m1) (shifted_month m1) d1
         (shifted_year y2 m2) (shifted_month m2) d2.
Proof.
  unfold before, shifted_year, shifted_month. intros H1 H2 H.
  destruct (Z.leb_spec m1 2), (Z.leb_spec m2 2),
    (Z.ltb_spec 2 m1), (Z.ltb_spec 2 m2); lia.
Qed.

Lemma toordinal_mono (y1 m1 d1 y2 m2 d2 : Z) :
  valid_date y1 m1 d1 -> valid_date y2 m2 d2 ->
  before y1 m1 d1 y2 m2 d2 ->
  toordinal y1 m1 d1 < toordinal y2 m2 d2.
Proof.
  intros V1 V2 B.
  pose proof V1 as (Hy1 & Hm1 & Hd1). pose proof V2 as (Hy2 & Hm2 & Hd2).
  rewrite !toordinal_shifted by assumption.
  apply before_shifted in B; [|assumption..].
  pose proof (day_of_shifted_year _ _ _ V1) as D1.
  pose proof (day_of_shifted_year _ _ _ V2) as D2.
  assert (S1 : 0 <= shifted_year y1 m1)
    by (unfold shifted_year; destruct (m1 <=? 2); lia).
  destruct B as [B|[E [B|[E' B]]]].
  - pose proof (year_days_step _ S1) as St.
    pose proof (year_days_mono (shifted_year y1 m1 + 1) (shifted_year y2 m2)) as Mo.
    lia.
  - pose proof (month_after_month _ _ _ _ V1 Hm2 B). rewrite E. lia.
  - rewrite E, E'. lia.
Qed.

Lemma digit_range (c : ascii) (v : Z) :
  digit c = Some v -> 0 <= v <= 9 /\ Z.of_N (N_of_ascii c) = v + 48.
Proof.
  unfold digit.
  destruct (Z.leb_spec 48 (Z.of_N (N_of_ascii c))); cbn [andb]; [|discriminate].
  destruct (Z.leb_spec (Z.of_N (N_of_ascii c)) 57); [|discriminate].
  intros [= <-]. lia.
Qed.

Lemma digit_compare (a b : ascii) (va vb : Z) :
  digit a = Some va -> digit b = Some vb ->
  Ascii.compare a b = Z.compare va vb.
Proof.
  intros Ha Hb. apply digit_range in Ha as [_ Ha], Hb as [_ Hb].
  unfold Ascii.compare. rewrite <- N2Z.inj_compare, Ha, Hb.
  destruct (Z.compare_spec va vb); [apply Z.compare_eq_iff|apply Z.compare_lt_iff|apply Z.compare_gt_iff]; lia.
Qed.

Lemma Some_inj {A : Type} (a b : A) : Some a = Some b -> a = b.
Proof. now intros [= ->]. Qed.

Lemma digits_cons (acc : Z) (c : ascii) (r : list ascii) :
  digits acc (c :: r)
  = match digit c with
    | Some d => digits (10 * acc + d) r
    | None => None
    end.
Proof. reflexivity. Qed.

Lemma digits_nil (acc : Z) : digits acc [] = Some acc.
Proof. reflexivity. Qed.

Lemma digits_two (a b : ascii) (v : Z) :
  digits 0 [a; b] = Some v ->
  exists va vb, digit a = Some va /\ digit b = Some vb /\ v = 10 * va + vb.
Proof.
  rewrite !digits_cons.
  destruct (digit a) as [va|]; [|discriminate]. rewrite digits_cons.
  destruct (digit b) as [vb|]; [|discriminate]. rewrite digits_nil.
  intro H. apply Some_inj in H. exists va, vb. repeat split; lia.
Qed.

Lemma digits_four (a b c d : ascii) (v : Z) :
  digits 0 [a; b; c; d] = Some v ->
  exists va vb vc vd,
    digit a = Some va /\ digit b = Some vb /\ digit c = Some vc /\ digit d = Some vd
    /\ v = 1000 * va + 100 * vb + 10 * vc + vd.
Proof.
  rewrite digits_cons.
  destruct (digit a) as [va|]; [|discriminate]. rewrite digits_cons.
  destruct (digit b) as [vb|]; [|discriminate]. rewrite digits_cons.
  destruct (digit c) as [vc|]; [|discriminate]. rewrite digits_cons.
  destruct (digit d) as [vd|]; [|discriminate]. rewrite digits_nil.
  intro H. apply Some_inj in H. exists va, vb, vc, vd. repeat split; lia.
Qed.

Lemma iso_fields_inv (s : string) (y m d : Z) :
  iso_fields s = Some (y, m, d) ->
  exists y1 y2 y3 y4 m1 m2 d1 d2 : ascii,
    s = String y1 (String y2 (String y3 (String y4 (String "-"
          (String m1 (String m2 (String "-" (String d1 (String d2 "")))))))))
    /\ digits 0 [y1; y2; y3; y4] = Some y
    /\ digits 0 [m1; m2] = Some m
    /\ digits 0 [d1; d2] = Some d.
Proof.
  unfold iso_fields. intro H.
  rewrite <- (string_of_list_ascii_of_string s).
  destruct (list_ascii_of_string s)
    as [|y1 [|y2 [|y3 [|y4 [|s1 [|m1 [|m2 [|s2 [|d1 [|d2 [|? ?]]]]]]]]]]];
    try discriminate.
  destruct (Ascii.eqb_spec s1 "-") as [->|]; [|discriminate].
  destruct (Ascii.eqb_spec s2 "-") as [->|]; [|discriminate].
  cbn [andb] in H.
  destruct (digits 0 [y1; y2; y3; y4]) as [y'|] eqn:Ey; [|discriminate].
  destruct (digits 0 [m1; m2]) as [m'|] eqn:Em; [|discriminate].
  destruct (digits 0 [d1; d2]) as [d'|] eqn:Ed; [|discriminate].
  apply Some_inj in H. injection H as -> -> ->.
  exists y1, y2, y3, y4, m1, m2, d1, d2. now repeat split.
Qed.

Ltac walk :=
  lazymatch goal with
  | |- context [Z.compare ?a ?b] =>
      destruct (Z.compare_spec a b);
      [subst; try walk
      | split; [intros _; unfold before; lia | reflexivity]
      | split; [discriminate | unfold before; lia]]
  | |- _ => split; [discriminate | unfold before; lia]
  end.

Lemma iso_fields_compare (s1 s2 : string) (y1 m1 d1 y2 m2 d2 : Z) :
  iso_fields s1 = Some (y1, m1, d1) ->
  iso_fields s2 = Some (y2, m2, d2) ->
  String.compare s1 s2 = Lt <-> before y1 m1 d1 y2 m2 d2.
Proof.
  intros H1 H2.
  apply iso_fields_inv in H1 as (a1 & a2 & a3 & a4 & a5 & a6 & a7 & a8 & -> & Ya & Ma & Da).
  apply iso_fields_inv in H2 as (b1 & b2 & b3 & b4 & b5 & b6 & b7 & b8 & -> & Yb & Mb & Db).
  apply digits_four in Ya as (u1 & u2 & u3 & u4 & U1 & U2 & U3 & U4 & ->).
  apply digits_four in Yb as (v1 & v2 & v3 & v4 & V1 & V2 & V3 & V4 & ->).
  apply digits_two in Ma as (u5 & u6 & U5 & U6 & ->).
  apply digits_two in Mb as (v5 & v6 & V5 & V6 & ->).
  apply digits_two in Da as (u7 & u8 & U7 & U8 & ->).
  apply digits_two in Db as (v7 & v8 & V7 & V8 & ->).
  cbn [String.compare].
  rewrite (digit_compare _ _ _ _ U1 V1), (digit_compare _ _ _ _ U2 V2),
    (digit_compare _ _ _ _ U3 V3), (digit_compare _ _ _ _ U4 V4),
    (digit_compare _ _ _ _ U5 V5), (digit_compare _ _ _ _ U6 V6),
    (digit_compare _ _ _ _ U7 V7), (digit_compare _ _ _ _ U8 V8).
  change (Ascii.compare "-" "-") with Eq. cbv iota.
  apply digit_range in U1 as [? _], U2 as [? _], U3 as [? _], U4 as [? _],
    U5 as [? _], U6 as [? _], U7 as [? _], U8 as [? _],
    V1 as [? _], V2 as [? _], V3 as [? _], V4 as [? _],
    V5 as [? _], V6 as [? _], V7 as [? _], V8 as [? _].
  walk.
Qed.

Lemma iso_strptime_inv (s : string) (n : Z) :
  iso_strptime s = Ok n ->
  exists y m d, iso_fields s = Some (y, m, d) /\ valid_date y m d
                /\ n = toordinal y m d.
Proof.
  unfold iso_strptime.
  destruct (iso_fields s) as [[[y m] d]|]; [|discriminate].
  destruct (valid_dateb y m d) eqn:V; [|discriminate].
  intros [= <-]. exists y, m, d. split; [reflexivity|].
  split; [now apply valid_dateb_spec | reflexivity].
Qed.

Lemma before_total (y1 m1 d1 y2 m2 d2 : Z) :
  before y1 m1 d1 y2 m2 d2
  \/ (y1 = y2 /\ m1 = m2 /\ d1 = d2)
  \/ before y2 m2 d2 y1 m1 d1.
Proof. unfold before. lia. Qed.

Lemma iso_order (s1 s2 : string) (n1 n2 : Z) :
  iso_strptime s1 = Ok n1 -> iso_strptime s2 = Ok n2 ->
  String.ltb s1 s2 = true <-> n1 < n2.
Proof.
  intros H1 H2.
  apply iso_strptime_inv in H1 as (y1 & m1 & d1 & F1 & V1 & ->).
  apply iso_strptime_inv in H2 as (y2 & m2 & d2 & F2 & V2 & ->).
  pose proof (iso_fields_compare _ _ _ _ _ _ _ _ F1 F2) as C.
  assert (L : String.ltb s1 s2 = true <-> String.compare s1 s2 = Lt).
  { unfold String.ltb. destruct (String.compare s1 s2); intuition congruence. }
  rewrite L, C. split.
  - now apply toordinal_mono.
  - intro Hn.
    destruct (before_total y1 m1 d1 y2 m2 d2) as [B|[(-> & -> & ->)|B]].
    + exact B.
    + lia.
    + pose proof (toordinal_mono _ _ _ _ _ _ V2 V1 B). lia.
Qed.

Lemma iso_key_le (s1 s2 : string) (n1 n2 : Z) :
  iso_strptime s1 = Ok n1 -> iso_strptime s2 = Ok n2 ->
  key_le s1 s2 <-> n1 <= n2.
Proof.
  intros H1 H2. unfold key_le.
  pose proof (iso_order _ _ _ _ H2 H1) as O.
  destruct (String.ltb s2 s1); split; intro H; try reflexivity; try discriminate.
  - assert (n2 < n1) by now apply O. lia.
  - destruct (Z.le_gt_cases n1 n2) as [L|G]; [exact L|].
    apply O in G. discriminate.
Qed.

End IsoDates.

(** ** [sorted] is a stable sort *)

Section Sorting.

Context {A : Type} (key : A -> string).

Lemma insort_perm (x : A) (l : list A) : Permutation (insort key x l) (x :: l).
Proof.
  induction l as [|y r IH]; simpl; [reflexivity|].
  destruct (String.ltb (key y) (key x)); [|reflexivity].
  rewrite IH. apply perm_swap.
Qed.

Lemma sorted_perm (l : list A) : Permutation (sorted l key) l.
Proof.
  induction l as [|x l IH]; simpl; [reflexivity|].
  rewrite insort_perm. now constructor.
Qed.

Lemma insort_sorted (x : A) (l : list A) :
  StronglySorted (by_key key) l -> StronglySorted (by_key key) (insort key x l).
Proof.
  induction 1 as [|y r Hr IH Hy]; simpl.
  - repeat constructor.
  - destruct (String.ltb (key y) (key x)) eqn:E.
    + constructor; [exact IH|].
      eapply Permutation_Forall; [apply Permutation_sym, insort_perm|].
      constructor; [now apply KeyOrder.lt_le | exact Hy].
    + constructor; [now constructor|].
      constructor; [exact E|].
      eapply Forall_impl; [|exact Hy].
      intros z Hz. eapply KeyOrder.le_trans; [exact E | exact Hz].
Qed.

Lemma sorted_sorted (l : list A) : StronglySorted (by_key key) (sorted l key).
Proof.
  induction l as [|x l IH]; simpl; [constructor|].
  now apply insort_sorted.
Qed.

Lemma insort_keyed (d : string) (x : A) (l : list A) :
  keyed key d (insort key x l) = keyed key d (x :: l).
Proof.
  induction l as [|y r IH]; [reflexivity|].
  cbn [insort]. destruct (String.ltb (key y) (key x)) eqn:E; [|reflexivity].
  unfold keyed in *. cbn [filter] in *. rewrite IH.
  destruct (String.eqb_spec (key x) d) as [Hx|Hx];
    destruct (String.eqb_spec (key y) d) as [Hy|Hy]; try reflexivity.
  rewrite Hx, Hy, KeyOrder.ltb_irrefl in E. discriminate.
Qed.

Lemma sorted_keyed (d : string) (l : list A) :
  keyed key d (sorted l key) = keyed key d l.
Proof.
  induction l as [|x l IH]; [reflexivity|].
  cbn [sorted fold_right]. rewrite insort_keyed.
  unfold keyed in *. cbn [filter]. fold (sorted l key). now rewrite IH.
Qed.

(** Order and stability leave one output only: whatever stable algorithm
    Python runs, it returns the list [sorted] returns. *)
Lemma keyed_head (a : A) (l : list A) :
  keyed key (key a) (a :: l) = a :: keyed key (key a) l.
Proof. unfold keyed. cbn [filter]. now rewrite String.eqb_refl. Qed.

Lemma keyed_other (d : string) (a : A) (l : list A) :
  key a <> d -> keyed key d (a :: l) = keyed key d l.
Proof.
  intro H. unfold keyed. cbn [filter].
  now destruct (String.eqb_spec (key a) d).
Qed.

Lemma keyed_in (d : string) (a : A) (l : list A) :
  In a (keyed key d l) <-> In a l /\ key a = d.
Proof.
  unfold keyed. rewrite filter_In. now rewrite String.eqb_eq.
Qed.

Lemma stable_sort_unique (l1 : list A) :
  forall l2 : list A,
    StronglySorted (by_key key) l1 ->
    StronglySorted (by_key key) l2 ->
    (forall d, keyed key d l1 = keyed key d l2) ->
    l1 = l2.
Proof.
  induction l1 as [|a r1 IH]; intros l2 S1 S2 E.
  - destruct l2 as [|b r2]; [reflexivity|].
    specialize (E (key b)). rewrite keyed_head in E. discriminate.
  - destruct l2 as [|b r2].
    + specialize (E (key a)). rewrite keyed_head in E. discriminate.
    + inversion S1 as [|? ? S1' F1]; subst.
      inversion S2 as [|? ? S2' F2]; subst.
      assert (K : key a = key b).
      { apply KeyOrder.le_antisym.
        - assert (I : In b (a :: r1)).
          { apply (keyed_in (key b)). rewrite E, keyed_head. now left. }
          destruct I as [->|I]; [apply KeyOrder.le_refl|].
          rewrite Forall_forall in F1. now apply F1.
        - assert (I : In a (b :: r2)).
          { apply (keyed_in (key a)). rewrite <- E, keyed_head. now left. }
          destruct I as [->|I]; [apply KeyOrder.le_refl|].
          rewrite Forall_forall in F2. now apply F2. }
      pose proof (E (key a)) as Ea.
      rewrite keyed_head, K, keyed_head in Ea.
      injection Ea as -> Ea. f_equal.
      apply IH; [exact S1' | exact S2' |].
      intro d. destruct (String.eqb_spec (key b) d) as [<-|N].
      * exact Ea.
      * specialize (E d). now rewrite !keyed_other in E by exact N.
Qed.

End Sorting.

(** ** The merged event list *)

Lemma keyed_app {A : Type} (key : A -> string) (d : string) (l1 l2 : list A) :
  keyed key d (l1 ++ l2) = (keyed key d l1 ++ keyed key d l2)%list.
Proof. apply filter_app. Qed.

Lemma keyed_tag (k : kind) (d : string) (l : list entry) :
  keyed (fun e : event => date e) d (map (tag k) l) = map (tag k) (keyed date d l).
Proof.
  induction l as [|x l IH]; [reflexivity|].
  unfold keyed in *. cbn [map filter]. rewrite IH.
  cbn [tag entry_of date]. now destruct (String.eqb (date x) d).
Qed.

Lemma all_events_perm (inj wd : list entry) :
  Permutation (all_events inj wd)
              (map (tag injection) inj ++ map (tag withdrawal) wd).
Proof.
  unfold all_events. rewrite sorted_perm.
  apply Permutation_app; apply Permutation_map, sorted_perm.
Qed.

(** C5. The events are processed in the order of a stable sort by date of
    the sorted injections followed by the sorted withdrawals: the dates
    ascend, the list holds the caller's events and no others, and the
    events of any one date are the injections of that date, in the order of
    the caller's list, followed by the withdrawals of that date, in the
    order of the caller's list.  No other list has these properties. *)
Theorem merged_order_is_stable (injection_events withdrawal_events : list entry) :
  let events := all_events injection_events withdrawal_events in
  let same_date (d : string) :=
    (map (tag injection) (keyed date d injection_events)
     ++ map (tag withdrawal) (keyed date d withdrawal_events))%list in
  StronglySorted (by_key (fun e : event => date e)) events
  /\ Permutation events (map (tag injection) injection_events
                         ++ map (tag withdrawal) withdrawal_events)
  /\ (forall d : string, keyed (fun e : event => date e) d events = same_date d)
  /\ (forall l : list event,
        StronglySorted (by_key (fun e : event => date e)) l ->
        (forall d : string, keyed (fun e : event => date e) d l = same_date d) ->
        l = events).
Proof.
  cbv zeta.
  assert (K : forall d : string,
             keyed (fun e : event => date e) d
                   (all_events injection_events withdrawal_events)
             = (map (tag injection) (keyed date d injection_events)
                ++ map (tag withdrawal) (keyed date d withdrawal_events))%list).
  { intro d. unfold all_events.
    rewrite sorted_keyed, keyed_app, !keyed_tag, !sorted_keyed.
    reflexivity. }
  split; [apply sorted_sorted|]. split; [apply all_events_perm|].
  split; [exact K|].
  intros l S E.
  apply (stable_sort_unique (fun e : event => date e));
    [exact S | apply sorted_sorted |].
  intro d. now rewrite E, K.
Qed.

Lemma StronglySorted_weaken {A : Type} (R S : A -> A -> Prop) (l : list A) :
  (forall a b, R a b -> S a b) -> StronglySorted R l -> StronglySorted S l.
Proof.
  intro H. induction 1 as [|a l _ IH F]; constructor; [exact IH|].
  eapply Forall_impl; [|exact F]. intro b. apply H.
Qed.

(** When the dates are zero-padded, ascending keys are ascending days. *)
Lemma all_events_chronological (injection_events withdrawal_events : list entry) :
  StronglySorted
    (fun a b : event =>
       forall n1 n2 : Z,
         iso_strptime (date a) = Ok n1 -> iso_strptime (date b) = Ok n2 ->
         (n1 <= n2)%Z)
    (all_events injection_events withdrawal_events).
Proof.
  apply StronglySorted_weaken
    with (R := by_key (fun e : event => date e)); [|apply sorted_sorted].
  intros a b H n1 n2 H1 H2. now apply (IsoDates.iso_key_le _ _ _ _ H1 H2).
Qed.

(** Two events of the merged list whose dates differ stand in the strict
    order of their dates. *)
Lemma by_key_strict {A : Type} (key : A -> string) (a b : A) :
  by_key key a b -> key a <> key b -> String.ltb (key a) (key b) = true.
Proof.
  unfold by_key. intros Hab Hne.
  destruct (String.ltb (key a) (key b)) eqn:E; [reflexivity|].
  exfalso. apply Hne. now apply KeyOrder.le_antisym.
Qed.

(** ** Computations *)

Lemma bind_ok {A B : Type} (c : comp A) (k : A -> comp B) (log : list string) (b : B) :
  bind c k = (log, Ok b) ->
  exists l1 a l2, c = (l1, Ok a) /\ k a = (l2, Ok b) /\ log = (l1 ++ l2)%list.
Proof.
  destruct c as [l1 [a|x]]; simpl; [|discriminate].
  destruct (k a) as [l2 r] eqn:E. intros [= <- ->].
  now exists l1, a, l2.
Qed.

Lemma bind_assoc {A B C : Type} (c : comp A) (k : A -> comp B) (h : B -> comp C) :
  bind (bind c k) h = bind c (fun a => bind (k a) h).
Proof.
  destruct c as [l1 [a|x]]; simpl; [|reflexivity].
  destruct (k a) as [l2 [b|x]]; simpl; [|reflexivity].
  destruct (h b) as [l3 r]. now rewrite app_assoc.
Qed.

(** ** One event *)

Section Pass.

Variable strptime : string -> result Z.
Variable estimate : string -> result Q.
Variable repr : Q -> string.
Variables storage_monthly_fee injection_fee withdrawal_fee max_storage : Q.

Local Abbreviation charge := (charge_storage strptime storage_monthly_fee).
Local Abbreviation apply :=
  (apply_event estimate repr injection_fee withdrawal_fee max_storage).
Local Abbreviation process :=
  (process_event strptime estimate repr storage_monthly_fee injection_fee
                 withdrawal_fee max_storage).
Local Abbreviation loop :=
  (event_loop strptime estimate repr storage_monthly_fee injection_fee
              withdrawal_fee max_storage).
Local Abbreviation finish :=
  (remainder strptime estimate repr storage_monthly_fee injection_fee
             withdrawal_fee max_storage).
Local Abbreviation valuation :=
  (price_contract strptime estimate repr storage_monthly_fee injection_fee
                  withdrawal_fee max_storage).

(** The carrying cost step asks the oracle nothing, and either raises what
    [strptime] raises or leaves inventory and previous date alone. *)
Lemma charge_storage_cases (st : state) (e : event) :
  (exists x, charge st e = ([], Raise x))
  \/ (exists st1, charge st e = ([], Ok st1)
                  /\ inventory st1 = inventory st
                  /\ prev_date st1 = prev_date st).
Proof.
  unfold charge_storage. destruct (prev_date st) as [prev|] eqn:P.
  - destruct (months_between strptime prev (date e)) as [m|x]; simpl.
    + right. eexists. split; [reflexivity|]. now split.
    + left. now exists x.
  - right. exists st. now repeat split.
Qed.

(** Lines 81-95 are a test followed, when it passes, by one oracle query
    and the update of the state. *)
Lemma apply_event_cases (st : state) (e : event) :
  apply st e =
  if violates max_storage st e
  then ([], Raise (diagnostic repr max_storage st e))
  else match estimate (date e) with
       | Ok price =>
           ([date e], Ok (applied injection_fee withdrawal_fee price st e))
       | Raise x => ([date e], Raise x)
       end.
Proof.
  unfold apply_event, violates, diagnostic, applied, get_price_estimate.
  destruct (etype e).
  - destruct (Qltb max_storage (inventory st + volume e)); [reflexivity|].
    now destruct (estimate (date e)).
  - destruct (Qltb (inventory st) (volume e)); [reflexivity|].
    now destruct (estimate (date e)).
Qed.

Lemma applied_inventory (price : Q) (st : state) (e : event) :
  inventory (applied injection_fee withdrawal_fee price st e)
  = inventory st + delta e.
Proof. unfold applied, delta. now destruct (etype e). Qed.

Lemma applied_net_value (price : Q) (st : state) (e : event) :
  estimate (date e) = Ok price ->
  net_value (applied injection_fee withdrawal_fee price st e)
  == net_value st + cash_flow estimate injection_fee withdrawal_fee e.
Proof.
  intro H. unfold applied, cash_flow, price_of. rewrite H.
  destruct (etype e); simpl; ring.
Qed.

(** The body of the loop, once the carrying cost step has gone through. *)
Lemma process_event_charged (st st1 : state) (e : event) :
  charge st e = ([], Ok st1) ->
  process st e =
  if violates max_storage st1 e
  then ([], Raise (diagnostic repr max_storage st1 e))
  else match estimate (date e) with
       | Ok price =>
           ([date e],
            Ok (let st2 := applied injection_fee withdrawal_fee price st1 e in
                mkState (inventory st2) (net_value st2) (Some (date e))))
       | Raise x => ([date e], Raise x)
       end.
Proof.
  intro H. unfold process_event. rewrite H. cbn [bind].
  rewrite apply_event_cases.
  destruct (violates max_storage st1 e); [reflexivity|].
  now destruct (estimate (date e)).
Qed.

Lemma process_event_uncharged (st : state) (e : event) (x : exn) :
  charge st e = ([], Raise x) -> process st e = ([], Raise x).
Proof. intro H. unfold process_event. now rewrite H. Qed.

(** An event that goes through asks the oracle once, about its own date. *)
Lemma process_event_ok (st st' : state) (e : event) (log : list string) :
  process st e = (log, Ok st') ->
  log = [date e]
  /\ exists st1, charge st e = ([], Ok st1)
                 /\ violates max_storage st1 e = false
                 /\ inventory st' = inventory st + delta e
                 /\ net_value st' ==
                    net_value st1
                    + cash_flow estimate injection_fee withdrawal_fee e
                 /\ prev_date st' = Some (date e).
Proof.
  destruct (charge_storage_cases st e) as [[x Hx]|[st1 [H1 [Hi Hp]]]].
  - rewrite (process_event_uncharged _ _ _ Hx). discriminate.
  - rewrite (process_event_charged _ _ _ H1).
    destruct (violates max_storage st1 e) eqn:V; [discriminate|].
    destruct (estimate (date e)) as [price|x] eqn:P; [|discriminate].
    intros [= <- <-]. split; [reflexivity|].
    exists st1. cbn [inventory net_value prev_date].
    rewrite applied_inventory, Hi.
    split; [exact H1|]. split; [exact V|]. split; [reflexivity|].
    split; [now apply applied_net_value | reflexivity].
Qed.

(** An event that raises has asked the oracle nothing, unless it is the
    oracle that raises. *)
Lemma process_event_raise (st : state) (e : event) (log : list string) (x : exn) :
  process st e = (log, Raise x) -> log = [] \/ log = [date e].
Proof.
  destruct (charge_storage_cases st e) as [[y Hy]|[st1 [H1 _]]].
  - rewrite (process_event_uncharged _ _ _ Hy). intros [= <- _]. now left.
  - rewrite (process_event_charged _ _ _ H1).
    destruct (violates max_storage st1 e).
    + intros [= <- _]. now left.
    + destruct (estimate (date e)); [discriminate|].
      intros [= <- _]. now right.
Qed.

(** ** The loop *)

Lemma event_loop_app (l1 l2 : list event) (st : state) :
  loop (l1 ++ l2) st = bind (loop l1 st) (fun st' => loop l2 st').
Proof.
  revert st. induction l1 as [|e l1 IH]; intro st.
  - simpl. unfold ret. cbn [bind]. now destruct (loop l2 st).
  - cbn [app event_loop]. rewrite bind_assoc.
    destruct (process st e) as [l [st1|x]]; cbn [bind]; [|reflexivity].
    now rewrite IH.
Qed.

(** A pass that completes has asked the oracle about every event, once,
    in the order of the list. *)
Lemma event_loop_ok_log (events : list event) (st st' : state) (log : list string) :
  loop events st = (log, Ok st') ->
  log = map (fun e : event => date e) events.
Proof.
  revert st log. induction events as [|e rest IH]; intros st log.
  - simpl. unfold ret. now intros [= <- _].
  - cbn [event_loop]. intro H.
    apply bind_ok in H as (l1 & st1 & l2 & H1 & H2 & ->).
    apply process_event_ok in H1 as [-> _].
    apply IH in H2 as ->. reflexivity.
Qed.

(** A completed pass has completed on every prefix. *)
Lemma event_loop_prefix (pre post : list event) (st st' : state) (log : list string) :
  loop (pre ++ post) st = (log, Ok st') ->
  exists st1, loop pre st = (map (fun e : event => date e) pre, Ok st1).
Proof.
  rewrite event_loop_app. intro H.
  apply bind_ok in H as (l1 & st1 & l2 & H1 & _ & _).
  exists st1. now rewrite <- (event_loop_ok_log _ _ _ _ H1).
Qed.

(** ** The valuation, seen from the event the pass has reached *)

Lemma price_contract_split (inj wd : list entry) (pre post : list event)
      (e : event) (log : list string) (st : state) :
  all_events inj wd = (pre ++ e :: post)%list ->
  loop pre initial = (log, Ok st) ->
  valuation inj wd =
  match process st e with
  | (l, Raise x) => ((log ++ l)%list, Raise x)
  | (l, Ok st') =>
      ((log ++ l ++ fst (finish post st'))%list, snd (finish post st'))
  end.
Proof.
  intros Hall Hpre. unfold price_contract, remainder.
  rewrite Hall, event_loop_app, Hpre. cbn [bind event_loop].
  destruct (process st e) as [l [st'|x]]; cbn [bind]; [|reflexivity].
  destruct (loop post st') as [l' [st''|x]]; cbn [bind ret fst snd];
    now rewrite ?app_nil_r.
Qed.

Lemma price_contract_reached (inj wd : list entry) (pre post : list event)
      (e : event) (log : list string) (st st1 : state) :
  all_events inj wd = (pre ++ e :: post)%list ->
  loop pre initial = (log, Ok st) ->
  charge st e = ([], Ok st1) ->
  valuation inj wd =
  if violates max_storage st1 e
  then (log, Raise (diagnostic repr max_storage st1 e))
  else
    match estimate (date e) with
    | Ok price =>
        let st2 := applied injection_fee withdrawal_fee price st1 e in
        let st' := mkState (inventory st2) (net_value st2) (Some (date e)) in
        ((log ++ date e :: fst (finish post st'))%list,
         snd (finish post st'))
    | Raise x => ((log ++ [date e])%list, Raise x)
    end.
Proof.
  intros Hall Hpre Hch.
  rewrite (price_contract_split _ _ _ _ _ _ _ Hall Hpre).
  rewrite (process_event_charged _ _ _ Hch).
  destruct (violates max_storage st1 e); [now rewrite app_nil_r|].
  now destruct (estimate (date e)).
Qed.

End Pass.

(** ** Comparisons of amounts *)

Lemma Qltb_lt (x y : Q) : Qltb x y = true <-> x < y.
Proof.
  unfold Qltb. rewrite negb_true_iff. split.
  - intro H. apply Qnot_le_lt. intro L.
    apply Qle_bool_iff in L. congruence.
  - intro H. destruct (Qle_bool y x) eqn:E; [|reflexivity].
    apply Qle_bool_iff in E. exfalso. now apply (Qlt_not_le x y).
Qed.

Lemma Qltb_ge (x y : Q) : Qltb x y = false <-> y <= x.
Proof.
  unfold Qltb. rewrite negb_false_iff. apply Qle_bool_iff.
Qed.

Lemma app_cons_not_self {A : Type} (l : list A) (a : A) (r : list A) :
  (l ++ a :: r)%list <> l.
Proof.
  intro H. apply (f_equal (@List.length A)) in H.
  rewrite length_app in H. simpl in H. lia.
Qed.

Lemma append_assoc (a b c : string) :
  ((a ++ b) ++ c = a ++ (b ++ c))%string.
Proof. induction a as [|x a IH]; simpl; [reflexivity|now rewrite IH]. Qed.

Lemma violates_same_inventory (max_storage : Q) (st st1 : state) (e : event) :
  inventory st1 = inventory st ->
  violates max_storage st1 e = violates max_storage st e.
Proof. unfold violates. now intros ->. Qed.

Lemma diagnostic_same_inventory (repr : Q -> string) (max_storage : Q)
      (st st1 : state) (e : event) :
  inventory st1 = inventory st ->
  diagnostic repr max_storage st1 e = diagnostic repr max_storage st e.
Proof. unfold diagnostic. now intros ->. Qed.

(** ** The tests of the events *)

Section Checks.

Variable strptime : string -> result Z.
Variable estimate : string -> result Q.
Variable repr : Q -> string.
Variables storage_monthly_fee injection_fee withdrawal_fee max_storage : Q.

Local Abbreviation charge := (charge_storage strptime storage_monthly_fee).
Local Abbreviation apply :=
  (apply_event estimate repr injection_fee withdrawal_fee max_storage).
Local Abbreviation process :=
  (process_event strptime estimate repr storage_monthly_fee injection_fee
                 withdrawal_fee max_storage).
Local Abbreviation loop :=
  (event_loop strptime estimate repr storage_monthly_fee injection_fee
              withdrawal_fee max_storage).
Local Abbreviation valuation :=
  (price_contract strptime estimate repr storage_monthly_fee injection_fee
                  withdrawal_fee max_storage).
Local Abbreviation reached :=
  (reached strptime estimate repr storage_monthly_fee injection_fee
           withdrawal_fee max_storage).

(** The valuation at a reached event: it raises there, or asks the oracle
    about the event and goes on. *)
Lemma reached_outcome (inj wd : list entry) (pre post : list event)
      (e : event) (log : list string) (st : state) :
  reached inj wd pre e post log st ->
  (violates max_storage st e = true
   /\ valuation inj wd = (log, Raise (diagnostic repr max_storage st e)))
  \/ (violates max_storage st e = false
      /\ exists l r, valuation inj wd = ((log ++ date e :: l)%list, r)).
Proof.
  intros (Hall & Hpre & st1 & Hch).
  erewrite price_contract_reached by eassumption.
  destruct (charge_storage_cases strptime storage_monthly_fee st e)
    as [[x Hx]|[st1' [H1 [Hi _]]]]; [congruence|].
  assert (st1' = st1) as -> by congruence.
  rewrite (violates_same_inventory _ _ _ _ Hi).
  rewrite (diagnostic_same_inventory _ _ _ _ _ Hi).
  destruct (violates max_storage st e); [left|right]; split; try reflexivity.
  destruct (estimate (date e)); eexists _, _; reflexivity.
Qed.

Lemma reached_raises_iff (inj wd : list entry) (pre post : list event)
      (e : event) (log : list string) (st : state) :
  reached inj wd pre e post log st ->
  violates max_storage st e = true
  <-> valuation inj wd = (log, Raise (diagnostic repr max_storage st e)).
Proof.
  intro R. destruct (reached_outcome _ _ _ _ _ _ _ R)
    as [[V H]|[V (l & r & H)]]; rewrite H, V; split; try reflexivity.
  - discriminate.
  - intros [= Hl _]. exfalso. now apply (app_cons_not_self log (date e) l).
Qed.

(** An event that passes its test at a reached point goes through. *)
Lemma reached_passes (inj wd : list entry) (pre post : list event)
      (e : event) (log : list string) (st : state) :
  reached inj wd pre e post log st ->
  violates max_storage st e = false ->
  forall price : Q,
    estimate (date e) = Ok price ->
    exists st', loop (pre ++ [e]) initial = ((log ++ [date e])%list, Ok st')
                /\ inventory st' = inventory st + delta e.
Proof.
  intros (Hall & Hpre & st1 & Hch) V price P.
  destruct (charge_storage_cases strptime storage_monthly_fee st e)
    as [[x Hx]|[st1' [H1 [Hi _]]]]; [congruence|].
  assert (st1' = st1) as -> by congruence.
  rewrite event_loop_app, Hpre. cbn [bind event_loop].
  erewrite process_event_charged by eassumption.
  rewrite (violates_same_inventory _ _ _ _ Hi), V, P. cbn [bind ret].
  rewrite app_nil_r. eexists. split; [reflexivity|].
  cbn [inventory]. now rewrite applied_inventory, Hi.
Qed.

(** C4. At a withdrawal the pass has reached, the valuation raises the
    inventory error exactly when the inventory is below the volume; a
    withdrawal of the whole inventory goes through, once the oracle has
    answered, and leaves none. *)
Theorem insufficient_inventory_exactly (inj wd : list entry)
        (pre post : list event) (e : event) (log : list string) (st : state) :
  reached inj wd pre e post log st ->
  etype e = withdrawal ->
  (inventory st < volume e
   <-> valuation inj wd
       = (log, Raise (ValueError (inventory_msg repr (volume e) (inventory st)))))
  /\ (volume e == inventory st ->
      forall price : Q,
        estimate (date e) = Ok price ->
        exists st', loop (pre ++ [e]) initial = ((log ++ [date e])%list, Ok st')
                    /\ inventory st' == 0).
Proof.
  intros R T.
  assert (V : violates max_storage st e = Qltb (inventory st) (volume e))
    by (unfold violates; now rewrite T).
  assert (D : diagnostic repr max_storage st e
              = ValueError (inventory_msg repr (volume e) (inventory st)))
    by (unfold diagnostic; now rewrite T).
  split.
  - rewrite <- Qltb_lt, <- V, <- D. apply (reached_raises_iff _ _ _ _ _ _ _ R).
  - intros All price P.
    destruct (reached_passes _ _ _ _ _ _ _ R) with (price := price)
      as (st' & Hst' & Hinv).
    + rewrite V. apply Qltb_ge. rewrite All. apply Qle_refl.
    + exact P.
    + exists st'. split; [exact Hst'|].
      rewrite Hinv. unfold delta. rewrite T, All. ring.
Qed.

(** The two messages never coincide: they start with different words. *)
Lemma messages_differ (v m v' i : Q) :
  capacity_msg repr v m <> inventory_msg repr v' i.
Proof. unfold capacity_msg, inventory_msg. simpl. discriminate. Qed.

Lemma capacity_msg_figures (v m : Q) :
  occurs_in (repr v) (capacity_msg repr v m)
  /\ occurs_in (repr m) (capacity_msg repr v m).
Proof.
  unfold capacity_msg, occurs_in. split.
  - eexists _, _. reflexivity.
  - exists ("Injection of " ++ repr v ++ " exceeds max storage of ")%string,
           "!"%string.
    now rewrite !append_assoc.
Qed.

Lemma inventory_msg_figures (v i : Q) :
  occurs_in (repr v) (inventory_msg repr v i)
  /\ occurs_in (repr i) (inventory_msg repr v i).
Proof.
  unfold inventory_msg, occurs_in. split.
  - eexists _, _. reflexivity.
  - exists ("Withdraw " ++ repr v ++ " but only ")%string,
           " in storage!"%string.
    now rewrite !append_assoc.
Qed.

(** C7, as the code has it.  An event that fails its test ends the
    valuation there: the call raises, whatever events follow, so no value
    is returned.  What is raised is a [ValueError] for a refused injection
    and for a refused withdrawal alike; the two are told apart by the
    message only, which never is the same for both and carries the volume
    together with the capacity, or with the inventory. *)
Theorem violation_ends_valuation (inj wd : list entry) (pre post : list event)
        (e : event) (log : list string) (st : state) :
  reached inj wd pre e post log st ->
  violates max_storage st e = true ->
  valuation inj wd = (log, Raise (diagnostic repr max_storage st e))
  /\ (forall v : Q, snd (valuation inj wd) <> Ok v)
  /\ (exists msg : string,
        diagnostic repr max_storage st e = ValueError msg
        /\ occurs_in (repr (volume e)) msg
        /\ match etype e with
           | injection =>
               msg = capacity_msg repr (volume e) max_storage
               /\ occurs_in (repr max_storage) msg
               /\ forall v i : Q, msg <> inventory_msg repr v i
           | withdrawal =>
               msg = inventory_msg repr (volume e) (inventory st)
               /\ occurs_in (repr (inventory st)) msg
               /\ forall v m : Q, msg <> capacity_msg repr v m
           end).
Proof.
  intros R V.
  assert (H : valuation inj wd = (log, Raise (diagnostic repr max_storage st e)))
    by now apply (reached_raises_iff _ _ _ _ _ _ _ R).
  split; [exact H|]. split; [rewrite H; discriminate|].
  unfold diagnostic. destruct (etype e); eexists; (split; [reflexivity|]).
  - destruct (capacity_msg_figures (volume e) max_storage) as [Hv Hm].
    repeat split; try assumption. intros v i. apply messages_differ.
  - destruct (inventory_msg_figures (volume e) (inventory st)) as [Hv Hi].
    repeat split; try assumption. intros v m E.
    now apply (messages_differ v m (volume e) (inventory st)).
Qed.

(** C10. When an event fails its test, the oracle has been asked about
    each event before it, once and in order, and not about the failing
    event: the log of the call is the dates of the events before it. *)
Theorem failing_event_not_queried (inj wd : list entry) (pre post : list event)
        (e : event) (log : list string) (st : state) :
  reached inj wd pre e post log st ->
  violates max_storage st e = true ->
  fst (valuation inj wd) = map (fun x : event => date x) pre
  /\ List.length (fst (valuation inj wd)) = List.length pre
  /\ apply st e = ([], Raise (diagnostic repr max_storage st e)).
Proof.
  intros R V.
  assert (H : valuation inj wd = (log, Raise (diagnostic repr max_storage st e)))
    by now apply (reached_raises_iff _ _ _ _ _ _ _ R).
  destruct R as (_ & Hpre & _).
  apply event_loop_ok_log in Hpre as ->.
  rewrite H. cbn [fst]. split; [reflexivity|].
  split; [apply length_map|].
  rewrite apply_event_cases. now rewrite V.
Qed.

End Checks.

(** ** The accounts of a completed pass *)

Section Ledger.

Variable strptime : string -> result Z.
Variable estimate : string -> result Q.
Variable repr : Q -> string.
Variables storage_monthly_fee injection_fee withdrawal_fee max_storage : Q.

Local Abbreviation charge := (charge_storage strptime storage_monthly_fee).
Local Abbreviation process :=
  (process_event strptime estimate repr storage_monthly_fee injection_fee
                 withdrawal_fee max_storage).
Local Abbreviation loop :=
  (event_loop strptime estimate repr storage_monthly_fee injection_fee
              withdrawal_fee max_storage).
Local Abbreviation valuation :=
  (price_contract strptime estimate repr storage_monthly_fee injection_fee
                  withdrawal_fee max_storage).
Local Abbreviation cash := (cash_flow estimate injection_fee withdrawal_fee).
Local Abbreviation total_cash :=
  (total_cash_flow estimate injection_fee withdrawal_fee).
Local Abbreviation carrying := (carrying_cost strptime storage_monthly_fee).

(** Before the first event the carrying cost step does nothing. *)
Lemma charge_storage_first (st : state) (e : event) :
  prev_date st = None -> charge st e = ([], Ok st).
Proof. unfold charge_storage. now intros ->. Qed.

(** Afterwards it takes the inventory times the fee times the months
    elapsed off the net value. *)
Lemma charge_storage_later (st st1 : state) (e : event) (prev : string) :
  prev_date st = Some prev ->
  charge st e = ([], Ok st1) ->
  exists months,
    elapsed_months strptime prev (date e) = Some months
    /\ net_value st1
       == net_value st - inventory st * storage_monthly_fee * months.
Proof.
  unfold charge_storage, months_between, elapsed_months. intros ->.
  destruct (strptime prev) as [d1|x]; [|discriminate].
  destruct (strptime (date e)) as [d2|x]; [|discriminate].
  cbn. intros [= <-]. eexists. split; [reflexivity|].
  cbn [net_value]. reflexivity.
Qed.

(** The net value after a pass that completes, started after an event
    dated [prev]. *)
Lemma event_loop_ledger (events : list event) :
  forall (st st' : state) (log : list string) (prev : string) (level : Q),
    prev_date st = Some prev ->
    level == inventory st ->
    loop events st = (log, Ok st') ->
    exists cost,
      carrying level prev events = Some cost
      /\ net_value st' == net_value st + total_cash events - cost.
Proof.
  induction events as [|e rest IH]; intros st st' log prev level P L H.
  - cbn in H. injection H as _ <-. exists 0. split; [reflexivity|].
    cbn. ring.
  - cbn [event_loop] in H.
    apply bind_ok in H as (l1 & s1 & l2 & H1 & H2 & _).
    apply process_event_ok in H1
      as (_ & st1 & Hch & _ & Hinv & Hnv & Hprev).
    destruct (charge_storage_later _ _ _ _ P Hch) as (months & Hm & Hst1).
    destruct (IH s1 st' l2 (date e) (level + delta e) Hprev) as (later & Hl & Hv);
      [now rewrite Hinv, L | exact H2 |].
    exists (level * storage_monthly_fee * months + later). split.
    + cbn [carrying_cost]. now rewrite Hm, Hl.
    + change (total_cash (e :: rest)) with (cash e + total_cash rest).
      rewrite Hv, Hnv, Hst1, L. ring.
Qed.

Lemma price_contract_ok (inj wd : list entry) (log : list string) (v : Q) :
  valuation inj wd = (log, Ok v) ->
  exists st, loop (all_events inj wd) initial = (log, Ok st)
             /\ v = net_value st.
Proof.
  unfold price_contract. intro H.
  apply bind_ok in H as (l1 & st & l2 & H1 & H2 & ->).
  injection H2 as <- <-. exists st. now rewrite app_nil_r.
Qed.

(** The ledger of a pass started from the initial state. *)
Lemma initial_ledger (events : list event) (st : state) (log : list string) :
  loop events initial = (log, Ok st) ->
  exists cost,
    total_carrying_cost strptime storage_monthly_fee events = Some cost
    /\ net_value st == total_cash events - cost.
Proof.
  destruct events as [|e rest]; intro H.
  - cbn in H. injection H as _ <-. exists 0. split; [reflexivity|].
    cbn. ring.
  - cbn [event_loop] in H.
    apply bind_ok in H as (l1 & s1 & l2 & H1 & H2 & _).
    apply process_event_ok in H1
      as (_ & st1 & Hch & _ & Hinv & Hnv & Hprev).
    rewrite charge_storage_first in Hch by reflexivity.
    injection Hch as <-.
    destruct (event_loop_ledger rest s1 st l2 (date e) (delta e) Hprev)
      as (cost & Hc & Hv); [rewrite Hinv; cbn; ring | exact H2 |].
    exists cost. split; [exact Hc|].
    change (total_cash (e :: rest)) with (cash e + total_cash rest).
    rewrite Hv, Hnv. cbn [initial net_value]. ring.
Qed.


(** ** The bounds of the inventory *)

Lemma process_event_bounds (st st' : state) (e : event) (log : list string) :
  0 <= volume e ->
  0 <= inventory st <= max_storage ->
  process st e = (log, Ok st') ->
  0 <= inventory st' <= max_storage.
Proof.
  intros Hv [Hlo Hhi] H.
  apply process_event_ok in H as (_ & st1 & Hch & V & Hinv & _).
  destruct (charge_storage_cases strptime storage_monthly_fee st e)
    as [[x Hx]|[st1' [H1 [Hi _]]]]; [congruence|].
  assert (st1' = st1) as -> by congruence.
  rewrite (violates_same_inventory _ _ _ _ Hi) in V.
  rewrite Hinv. unfold violates in V. unfold delta.
  destruct (etype e); apply Qltb_ge in V; split; lra.
Qed.

Lemma event_loop_bounds (events : list event) :
  forall (st st' : state) (log : list string),
    Forall (fun e : event => 0 <= volume e) events ->
    0 <= inventory st <= max_storage ->
    loop events st = (log, Ok st') ->
    0 <= inventory st' <= max_storage.
Proof.
  induction events as [|e rest IH]; intros st st' log Hvol Hb H.
  - cbn in H. now injection H as _ <-.
  - cbn [event_loop] in H.
    apply bind_ok in H as (l1 & s1 & l2 & H1 & H2 & _).
    inversion Hvol as [|? ? He Hrest]; subst.
    apply (IH s1 st' l2 Hrest); [|exact H2].
    now apply (process_event_bounds st s1 e l1).
Qed.

Lemma all_events_volumes (inj wd : list entry) :
  Forall (fun x : entry => 0 <= volume x) inj ->
  Forall (fun x : entry => 0 <= volume x) wd ->
  Forall (fun e : event => 0 <= volume e) (all_events inj wd).
Proof.
  intros Hi Hw.
  eapply Permutation_Forall; [apply Permutation_sym, all_events_perm|].
  apply Forall_app. split; apply Forall_map; cbn; assumption.
Qed.


(** ** The log *)

(** Whatever the outcome, the oracle has been asked about the events of a
    prefix of the list, and about nothing else. *)
Lemma event_loop_log_prefix (events : list event) :
  forall (st : state) (log : list string) (r : result state),
    loop events st = (log, r) ->
    exists pre post,
      events = (pre ++ post)%list /\ log = map (fun e : event => date e) pre.
Proof.
  induction events as [|e rest IH]; intros st log r H.
  - cbn in H. injection H as <- _. now exists [], [].
  - cbn [event_loop] in H.
    destruct (process st e) as [l1 [s1|x]] eqn:P; cbn [bind] in H.
    + apply process_event_ok in P as [-> _].
      destruct (loop rest s1) as [l2 r2] eqn:L. injection H as <- _.
      destruct (IH _ _ _ L) as (pre & post & -> & ->).
      now exists (e :: pre), post.
    + injection H as <- _.
      apply process_event_raise in P as [->| ->].
      * now exists [], (e :: rest).
      * now exists [e], rest.
Qed.

End Ledger.

(** ** A contract without fees *)

Section FreeOfCharge.

Variable strptime : string -> result Z.
Variable estimate : string -> result Q.
Variables storage_monthly_fee injection_fee withdrawal_fee : Q.

Hypothesis no_storage_fee : storage_monthly_fee == 0.
Hypothesis no_injection_fee : injection_fee == 0.
Hypothesis no_withdrawal_fee : withdrawal_fee == 0.

Local Abbreviation total_cash :=
  (total_cash_flow estimate injection_fee withdrawal_fee).

Lemma carrying_cost_free (events : list event) :
  forall (level : Q) (prev : string) (cost : Q),
    carrying_cost strptime storage_monthly_fee level prev events = Some cost ->
    cost == 0.
Proof.
  induction events as [|e rest IH]; intros level prev cost.
  - cbn. now intros [= <-].
  - cbn [carrying_cost].
    destruct (elapsed_months strptime prev (date e)) as [months|]; [|discriminate].
    destruct (carrying_cost strptime storage_monthly_fee (level + delta e)
                            (date e) rest) as [later|] eqn:L; [|discriminate].
    intros [= <-]. rewrite (IH _ _ _ L), no_storage_fee. ring.
Qed.

Lemma total_carrying_cost_free (events : list event) (cost : Q) :
  total_carrying_cost strptime storage_monthly_fee events = Some cost ->
  cost == 0.
Proof.
  destruct events as [|e rest]; cbn.
  - now intros [= <-].
  - apply carrying_cost_free.
Qed.

Lemma total_cash_flow_cons (e : event) (l : list event) :
  total_cash (e :: l)
  = cash_flow estimate injection_fee withdrawal_fee e + total_cash l.
Proof. reflexivity. Qed.

Lemma traded_value_cons (x : entry) (l : list entry) :
  traded_value estimate (x :: l)
  = price_of estimate (date x) * volume x + traded_value estimate l.
Proof. reflexivity. Qed.

Lemma total_cash_flow_app (l1 l2 : list event) :
  total_cash (l1 ++ l2) == total_cash l1 + total_cash l2.
Proof.
  induction l1 as [|e l1 IH].
  - cbn [app]. change (total_cash []) with 0. ring.
  - cbn [app]. rewrite !total_cash_flow_cons, IH. ring.
Qed.

Lemma total_cash_flow_perm (l1 l2 : list event) :
  Permutation l1 l2 -> total_cash l1 == total_cash l2.
Proof.
  induction 1 as [|e l1 l2 _ IH|a b l|l1 l2 l3 _ IH1 _ IH2].
  - reflexivity.
  - rewrite !total_cash_flow_cons. now rewrite IH.
  - rewrite !total_cash_flow_cons. ring.
  - now rewrite IH1.
Qed.

Lemma total_cash_flow_injections (l : list entry) :
  total_cash (map (tag injection) l) == - traded_value estimate l.
Proof.
  induction l as [|x l IH]; [reflexivity|].
  cbn [map]. rewrite total_cash_flow_cons, traded_value_cons, IH.
  unfold cash_flow. cbn [tag etype entry_of date volume].
  rewrite no_injection_fee. ring.
Qed.

Lemma total_cash_flow_withdrawals (l : list entry) :
  total_cash (map (tag withdrawal) l) == traded_value estimate l.
Proof.
  induction l as [|x l IH]; [reflexivity|].
  cbn [map]. rewrite total_cash_flow_cons, traded_value_cons, IH.
  unfold cash_flow. cbn [tag etype entry_of date volume].
  rewrite no_withdrawal_fee. ring.
Qed.

Lemma total_cash_flow_merged (inj wd : list entry) :
  total_cash (all_events inj wd)
  == traded_value estimate wd - traded_value estimate inj.
Proof.
  rewrite (total_cash_flow_perm _ _ (all_events_perm inj wd)).
  rewrite total_cash_flow_app, total_cash_flow_injections,
    total_cash_flow_withdrawals.
  ring.
Qed.

End FreeOfCharge.

(** C8. Without events the value is 0 and the oracle is not asked, whatever
    the oracle and the parameters. *)
Theorem empty_lists_value (strptime : string -> result Z)
        (estimate : string -> result Q) (repr : Q -> string)
        (storage_monthly_fee injection_fee withdrawal_fee max_storage : Q) :
  price_contract strptime estimate repr storage_monthly_fee injection_fee
                 withdrawal_fee max_storage [] []
  = ([], Ok 0).
Proof. reflexivity. Qed.


(** ** Two runs *)

Lemma process_event_oracle (strptime : string -> result Z)
      (estimate1 estimate2 : string -> result Q) (repr : Q -> string)
      (storage_monthly_fee injection_fee withdrawal_fee max_storage : Q)
      (st : state) (e : event) :
  estimate1 (date e) = estimate2 (date e) ->
  process_event strptime estimate1 repr storage_monthly_fee injection_fee
                withdrawal_fee max_storage st e
  = process_event strptime estimate2 repr storage_monthly_fee injection_fee
                  withdrawal_fee max_storage st e.
Proof.
  intro H. unfold process_event.
  destruct (charge_storage strptime storage_monthly_fee st e) as [l [st1|x]];
    cbn [bind]; [|reflexivity].
  rewrite !apply_event_cases. now rewrite H.
Qed.

Lemma event_loop_oracle (strptime : string -> result Z)
      (estimate1 estimate2 : string -> result Q) (repr : Q -> string)
      (storage_monthly_fee injection_fee withdrawal_fee max_storage : Q)
      (events : list event) :
  Forall (fun e : event => estimate1 (date e) = estimate2 (date e)) events ->
  forall st : state,
    event_loop strptime estimate1 repr storage_monthly_fee injection_fee
               withdrawal_fee max_storage events st
    = event_loop strptime estimate2 repr storage_monthly_fee injection_fee
                 withdrawal_fee max_storage events st.
Proof.
  induction 1 as [|e rest He _ IH]; intro st; [reflexivity|].
  cbn [event_loop]. rewrite (process_event_oracle _ _ _ _ _ _ _ _ _ _ He).
  destruct (process_event strptime estimate2 repr storage_monthly_fee
                          injection_fee withdrawal_fee max_storage st e)
    as [l [st1|x]]; cbn [bind]; [|reflexivity].
  now rewrite IH.
Qed.

Lemma all_events_dates (inj wd : list entry) (e : event) :
  In e (all_events inj wd) ->
  exists x : entry, In x (inj ++ wd) /\ date x = date e.
Proof.
  intro H.
  apply (Permutation_in _ (all_events_perm inj wd)) in H.
  apply in_app_or in H as [H|H]; apply in_map_iff in H as (x & <- & Hx);
    exists x; (split; [apply in_or_app; auto | reflexivity]).
Qed.

(** The oracle matters on the dates of the events only: two oracles that
    answer alike there give the same outcome and the same queries, and the
    queries are about dates of the caller's events. *)
Lemma price_contract_deterministic (strptime : string -> result Z)
        (estimate1 estimate2 : string -> result Q) (repr : Q -> string)
        (storage_monthly_fee injection_fee withdrawal_fee max_storage : Q)
        (inj wd : list entry) :
  (forall x : entry, In x (inj ++ wd) -> estimate1 (date x) = estimate2 (date x)) ->
  price_contract strptime estimate1 repr storage_monthly_fee injection_fee
                 withdrawal_fee max_storage inj wd
  = price_contract strptime estimate2 repr storage_monthly_fee injection_fee
                   withdrawal_fee max_storage inj wd
  /\ incl (fst (price_contract strptime estimate1 repr storage_monthly_fee
                               injection_fee withdrawal_fee max_storage inj wd))
          (map date (inj ++ wd)).
Proof.
  intro Hsame. split.
  - unfold price_contract. rewrite (event_loop_oracle _ estimate1 estimate2);
      [reflexivity|].
    apply Forall_forall. intros e He.
    apply all_events_dates in He as (x & Hx & <-). now apply Hsame.
  - unfold price_contract.
    destruct (event_loop strptime estimate1 repr storage_monthly_fee
                         injection_fee withdrawal_fee max_storage
                         (all_events inj wd) initial) as [log r] eqn:L.
    destruct (event_loop_log_prefix _ _ _ _ _ _ _ _ _ _ _ L)
      as (pre & post & Hsplit & ->).
    assert (Hlog : fst (bind (map (fun e : event => date e) pre, r)
                             (fun st => ret (net_value st)))
                   = map (fun e : event => date e) pre).
    { destruct r; cbn; [apply app_nil_r | reflexivity]. }
    rewrite Hlog. intros d Hd.
    apply in_map_iff in Hd as (e & <- & He).
    assert (Hall : In e (all_events inj wd))
      by (rewrite Hsplit; apply in_or_app; now left).
    apply all_events_dates in Hall as (x & Hx & <-).
    now apply in_map.
Qed.

(** ** The objects of a call *)

Lemma insort_map {A B : Type} (f : A -> B) (key : A -> string)
      (key' : B -> string) (x : A) (l : list A) :
  (forall y, key' (f y) = key y) ->
  insort key' (f x) (map f l) = map f (insort key x l).
Proof.
  intro K. induction l as [|y r IH]; [reflexivity|].
  cbn [map insort]. rewrite !K.
  destruct (String.ltb (key y) (key x)); cbn [map]; [now rewrite IH|reflexivity].
Qed.

Lemma sorted_map {A B : Type} (f : A -> B) (key : A -> string)
      (key' : B -> string) (l : list A) :
  (forall y, key' (f y) = key y) ->
  sorted (map f l) key' = map f (sorted l key).
Proof.
  intro K. induction l as [|x l IH]; [reflexivity|].
  cbn [map sorted fold_right]. fold (sorted (map f l) key').
  fold (sorted l key). rewrite IH. now apply insort_map.
Qed.

(** Two lists item by item, as one list of pairs. *)
Lemma Forall2_zip {A B : Type} (R : A -> B -> Prop) (l1 : list A) (l2 : list B) :
  Forall2 R l1 l2 ->
  exists l : list (A * B),
    l1 = map fst l /\ l2 = map snd l /\ Forall (fun p => R (fst p) (snd p)) l.
Proof.
  induction 1 as [|a b l1 l2 Hab _ (l & -> & -> & Hl)].
  - now exists [].
  - exists ((a, b) :: l). repeat split. now constructor.
Qed.

Lemma Forall_unzip {A B : Type} (R : A -> B -> Prop) (l : list (A * B)) :
  Forall (fun p => R (fst p) (snd p)) l -> Forall2 R (map fst l) (map snd l).
Proof. induction 1; cbn [map]; now constructor. Qed.

(** *** The store *)

Lemma update_same (h : store) (l : loc) (o o' : object) :
  nth_error h l = Some o' -> nth_error (update h l o) l = Some o.
Proof.
  revert l. induction h as [|x h IH]; intros [|l]; cbn; try discriminate.
  - reflexivity.
  - apply IH.
Qed.

Lemma update_other (h : store) (l l' : loc) (o : object) :
  l' <> l -> nth_error (update h l o) l' = nth_error h l'.
Proof.
  revert l l'. induction h as [|x h IH]; intros [|l] [|l'] N; cbn;
    try reflexivity.
  - now contradiction N.
  - apply IH. intros ->. now apply N.
Qed.

Lemma extend_old (h : store) (o o' : object) (l : loc) :
  nth_error h l = Some o -> nth_error (h ++ [o']) l = Some o.
Proof.
  intro H. rewrite nth_error_app1; [exact H|].
  apply nth_error_Some. congruence.
Qed.

Lemma extend_new (h : store) (o : object) :
  nth_error (h ++ [o]) (List.length h) = Some o.
Proof. rewrite nth_error_app2, Nat.sub_diag by lia. reflexivity. Qed.

Lemma not_yet_there (h : store) (o : object) :
  nth_error h (List.length h) <> Some o.
Proof.
  intro H. assert (nth_error h (List.length h) <> None) as N by congruence.
  apply nth_error_Some in N. lia.
Qed.

Lemma apart_from_refl (a : loc) (h : store) : apart_from a h h.
Proof. now intros l o _ H. Qed.

Lemma apart_from_trans (a : loc) (h1 h2 h3 : store) :
  apart_from a h1 h2 -> apart_from a h2 h3 -> apart_from a h1 h3.
Proof. intros H12 H23 l o N H. apply H23, H12; assumption. Qed.

Lemma apart_from_extend (a : loc) (h : store) (o : object) :
  apart_from a h (h ++ [o]).
Proof. intros l o' _ H. now apply extend_old. Qed.

Lemma apart_from_update (a : loc) (h : store) (o : object) :
  apart_from a h (update h a o).
Proof. intros l o' N H. now rewrite update_other. Qed.

Lemma apart_from_preserved (h h' : store) :
  apart_from (List.length h) h h' -> preserved h h'.
Proof.
  intros H l o Hl. apply H; [|exact Hl].
  intros ->. now apply (not_yet_there h o).
Qed.

Lemma preserved_extend (h : store) (o : object) : preserved h (h ++ [o]).
Proof. intros l o' H. now apply extend_old. Qed.

Lemma preserved_trans (h1 h2 h3 : store) :
  preserved h1 h2 -> preserved h2 h3 -> preserved h1 h3.
Proof. intros H12 H23 l o H. now apply H23, H12. Qed.

Lemma dict_at_apart (a : loc) (h h' : store) (items : list loc) (r : loc)
      (x : entry) :
  apart_from a h h' -> nth_error h a = Some (PyList items) ->
  dict_at h r x -> dict_at h' r x.
Proof.
  intros Hh Ha [type Hr]. exists type. apply Hh; [|exact Hr].
  intros ->. congruence.
Qed.

Lemma event_at_apart (a : loc) (h h' : store) (items : list loc) (r : loc)
      (e : event) :
  apart_from a h h' -> nth_error h a = Some (PyList items) ->
  event_at h r e -> event_at h' r e.
Proof.
  unfold event_at. intros Hh Ha Hr. apply Hh; [|exact Hr].
  intros ->. congruence.
Qed.

Lemma dict_at_preserved (h h' : store) (r : loc) (x : entry) :
  preserved h h' -> dict_at h r x -> dict_at h' r x.
Proof. intros Hh [type Hr]. exists type. now apply Hh. Qed.

Lemma list_at_preserved (h h' : store) (l : loc) (xs : list entry) :
  preserved h h' -> list_at h l xs -> list_at h' l xs.
Proof.
  intros Hh (refs & Hl & Hrefs). exists refs. split; [now apply Hh|].
  eapply Forall2_impl; [|exact Hrefs].
  intros r x. now apply dict_at_preserved.
Qed.

(** *** Computations over the store *)

Lemma pbind_step {A B : Type} (p : prog A) (k : A -> prog B)
      (h h1 : store) (a : A) :
  p h = (h1, ([], Ok a)) -> pbind p k h = k a h1.
Proof.
  intro H. unfold pbind. rewrite H.
  now destruct (k a h1) as [h2 [log' r]].
Qed.

Lemma get_list_at (h : store) (l : loc) (items : list loc) :
  nth_error h l = Some (PyList items) -> get_list l h = (h, ([], Ok items)).
Proof. intro H. unfold get_list. now rewrite H. Qed.

Lemma get_dict_at (h : store) (r : loc) (x : entry) (type : option kind) :
  nth_error h r = Some (PyDict x type) -> get_dict r h = (h, ([], Ok (x, type))).
Proof. intro H. unfold get_dict. now rewrite H. Qed.

Lemma set_list_at (h : store) (l : loc) (old items : list loc) :
  nth_error h l = Some (PyList old) ->
  set_list l items h = (update h l (PyList items), ([], Ok tt)).
Proof. intro H. unfold set_list. now rewrite H. Qed.

(** The keys of dictionaries that are there: the store is only read. *)
Lemma keys_at (h : store) (ks : list (loc * string)) :
  Forall (fun p => exists x type,
              nth_error h (fst p) = Some (PyDict x type) /\ date x = snd p) ks ->
  keys (map fst ks) h = (h, ([], Ok ks)).
Proof.
  induction 1 as [|[r d] ks (x & type & Hr & Hd) _ IH]; [reflexivity|].
  cbn [map fst keys]. cbn [fst snd] in Hr, Hd.
  rewrite (pbind_step _ _ _ _ _ (get_dict_at _ _ _ _ Hr)).
  rewrite (pbind_step _ _ _ _ _ IH). cbn [fst]. now rewrite Hd.
Qed.

(** The items of a list in the order of their keys, when each item comes
    with what its dictionary holds. *)
Lemma keys_sorted {T : Type} (key : T -> string) (l : list (loc * T)) :
  map fst (sorted (map (fun p => (fst p, key (snd p))) l) snd)
  = map fst (sorted l (fun p => key (snd p)))
  /\ map snd (sorted l (fun p => key (snd p))) = sorted (map snd l) key.
Proof.
  split.
  - rewrite (sorted_map (fun p : loc * T => (fst p, key (snd p)))
                        (fun p => key (snd p)) snd) by reflexivity.
    now rewrite map_map.
  - symmetry. now apply sorted_map.
Qed.

Lemma sorted_in_at (h : store) (i : loc) (l : list (loc * entry)) :
  nth_error h i = Some (PyList (map fst l)) ->
  Forall (fun p => dict_at h (fst p) (snd p)) l ->
  sorted_in i h
  = ((h ++ [PyList (map fst (sorted l (fun p => date (snd p))))])%list,
     ([], Ok (List.length h))).
Proof.
  intros Hi Hl. unfold sorted_in.
  rewrite (pbind_step _ _ _ _ _ (get_list_at _ _ _ Hi)).
  assert (K : keys (map fst l) h
              = (h, ([], Ok (map (fun p => (fst p, date (snd p))) l)))).
  { rewrite <- (keys_at h (map (fun p => (fst p, date (snd p))) l)).
    - now rewrite map_map.
    - apply Forall_map. eapply Forall_impl; [|exact Hl].
      intros [r x] [type Hr]. now exists x, type. }
  rewrite (pbind_step _ _ _ _ _ K). unfold new.
  now rewrite (proj1 (keys_sorted date l)).
Qed.

Lemma append_in_at (h : store) (a r : loc) (items : list loc) :
  nth_error h a = Some (PyList items) ->
  append_in a r h = (update h a (PyList (items ++ [r])), ([], Ok tt)).
Proof.
  intro Ha. unfold append_in.
  rewrite (pbind_step _ _ _ _ _ (get_list_at _ _ _ Ha)).
  now apply set_list_at with (old := items).
Qed.

(** Lines 59-62: the dictionaries read are left alone, and [all_events]
    lists one new dictionary more for each of them. *)
Lemma append_events_at (a : loc) (k : kind) (l : list (loc * entry)) :
  forall (h : store) (items : list loc) (events : list event),
    nth_error h a = Some (PyList items) ->
    Forall2 (event_at h) items events ->
    Forall (fun p => dict_at h (fst p) (snd p)) l ->
    exists h' items',
      append_events a k (map fst l) h = (h', ([], Ok tt))
      /\ nth_error h' a = Some (PyList items')
      /\ Forall2 (event_at h') items' (events ++ map (tag k) (map snd l))
      /\ apart_from a h h'.
Proof.
  induction l as [|[r x] l IH]; intros h items events Ha Hev Hl.
  - exists h, items. cbn [map]. rewrite app_nil_r.
    repeat split; try assumption. apply apart_from_refl.
  - inversion Hl as [|? ? [type Hr] Hrest]; subst. cbn [fst snd] in Hr.
    cbn [map fst snd append_events].
    rewrite (pbind_step _ _ _ _ _ (get_dict_at _ _ _ _ Hr)). cbn [fst].
    set (o := PyDict (mkEntry (date x) (volume x)) (Some k)).
    assert (N : new o h = ((h ++ [o])%list, ([], Ok (List.length h))))
      by reflexivity.
    rewrite (pbind_step _ _ _ _ _ N).
    assert (Ha1 : nth_error (h ++ [o]) a = Some (PyList items))
      by now apply extend_old.
    rewrite (pbind_step _ _ _ _ _ (append_in_at _ _ (List.length h) _ Ha1)).
    set (h2 := update (h ++ [o]) a (PyList (items ++ [List.length h]))).
    assert (A2 : apart_from a h h2).
    { apply (apart_from_trans a h (h ++ [o])).
      - apply apart_from_extend.
      - apply apart_from_update. }
    assert (Ha2 : nth_error h2 a = Some (PyList (items ++ [List.length h])))
      by now apply (update_same _ _ _ _ Ha1).
    assert (Hnew : event_at h2 (List.length h) (tag k x)).
    { unfold event_at, h2. rewrite update_other.
      - apply extend_new.
      - intros E. rewrite <- E in Ha. now apply (not_yet_there h _ Ha). }
    destruct (IH h2 (items ++ [List.length h])%list (events ++ [tag k x])%list)
      as (h' & items' & Hrun & Ha' & Hev' & A').
    + exact Ha2.
    + apply Forall2_app.
      * eapply Forall2_impl; [|exact Hev].
        intros r0 e0. now apply (event_at_apart a h h2 items).
      * constructor; [exact Hnew | constructor].
    + eapply Forall_impl; [|exact Hrest].
      intros [r0 x0]. now apply (dict_at_apart a h h2 items).
    + exists h', items'. split; [exact Hrun|]. split; [exact Ha'|].
      split; [|now apply (apart_from_trans a h h2)].
      now rewrite <- app_assoc in Hev'.
Qed.

(** Line 63: [all_events] lists the same dictionaries, in the order of
    their dates. *)
Lemma sort_in_at (h : store) (a : loc) (items : list loc) (events : list event) :
  nth_error h a = Some (PyList items) ->
  Forall2 (event_at h) items events ->
  exists items',
    sort_in a h = (update h a (PyList items'), ([], Ok tt))
    /\ Forall2 (event_at (update h a (PyList items'))) items'
               (sorted events (fun e : event => date e)).
Proof.
  intros Ha Hev.
  destruct (Forall2_zip _ _ _ Hev) as (l & -> & -> & Hl).
  destruct (keys_sorted (fun e : event => date e) l) as [K1 K2].
  exists (map fst (sorted l (fun p : loc * event => date (snd p)))).
  unfold sort_in.
  rewrite (pbind_step _ _ _ _ _ (get_list_at _ _ _ Ha)).
  assert (K : keys (map fst l) h
              = (h, ([], Ok (map (fun p : loc * event => (fst p, date (snd p))) l)))).
  { rewrite <- (keys_at h (map (fun p : loc * event => (fst p, date (snd p))) l)).
    - now rewrite map_map.
    - apply Forall_map. eapply Forall_impl; [|exact Hl].
      intros [r e] Hr. now exists (entry_of e), (Some (etype e)). }
  rewrite (pbind_step _ _ _ _ _ K).
  rewrite K1. split; [now apply set_list_at with (old := map fst l)|].
  rewrite <- K2. apply Forall_unzip.
  eapply Permutation_Forall; [apply Permutation_sym, sorted_perm|].
  eapply Forall_impl; [|exact Hl].
  intros [r e]. apply (event_at_apart a h _ (map fst l)); [|exact Ha].
  apply apart_from_update.
Qed.

Section ObjectsOfACall.

Variable strptime : string -> result Z.
Variable estimate : string -> result Q.
Variable repr : Q -> string.
Variables storage_monthly_fee injection_fee withdrawal_fee max_storage : Q.

Local Abbreviation loop :=
  (event_loop strptime estimate repr storage_monthly_fee injection_fee
              withdrawal_fee max_storage).
Local Abbreviation pass :=
  (pass_in strptime estimate repr storage_monthly_fee injection_fee
           withdrawal_fee max_storage).
Local Abbreviation call :=
  (price_contract_in strptime estimate repr storage_monthly_fee injection_fee
                     withdrawal_fee max_storage).

(** Lines 69-97 read the dictionaries of [all_events] and change no
    object: the pass is the pass of the exact embedding over what the
    dictionaries hold. *)
Lemma pass_in_at (h : store) (refs : list loc) (events : list event) :
  Forall2 (event_at h) refs events ->
  forall st : state, pass refs st h = (h, loop events st).
Proof.
  induction 1 as [|r e refs events Hr _ IH]; intro st; [reflexivity|].
  cbn [pass_in event_loop].
  rewrite (pbind_step _ _ _ _ _ (get_dict_at _ _ _ _ Hr)). cbn [fst snd].
  replace (mkEvent (entry_of e) (etype e)) with e by now destruct e.
  unfold pbind, run.
  destruct (process_event strptime estimate repr storage_monthly_fee
                          injection_fee withdrawal_fee max_storage st e)
    as [log [st'|x]]; cbn [bind]; [|reflexivity].
  rewrite IH. now destruct (loop events st') as [log' r'].
Qed.

(** A call on two lists of dictionaries: its outcome and its queries are
    those of [price_contract] on what the dictionaries hold, and every
    object that was in the store is still there as it was. *)
Lemma price_contract_in_at (h : store) (i w : loc) (inj wd : list entry) :
  list_at h i inj -> list_at h w wd ->
  exists h',
    call i w h
    = (h', price_contract strptime estimate repr storage_monthly_fee
                          injection_fee withdrawal_fee max_storage inj wd)
    /\ preserved h h'.
Proof.
  intros (irefs & Hi & Hinj) (wrefs & Hw & Hwd).
  destruct (Forall2_zip _ _ _ Hinj) as (li & -> & -> & Hli).
  destruct (Forall2_zip _ _ _ Hwd) as (lw & -> & -> & Hlw).
  set (a := List.length h).
  (* line 58 *)
  set (h1 := (h ++ [PyList []])%list).
  assert (A1 : apart_from a h h1) by apply apart_from_extend.
  assert (Ha1 : nth_error h1 a = Some (PyList [])) by apply extend_new.
  (* line 59: sorted *)
  set (si := sorted li (fun p => date (snd p))).
  assert (Hsi : Forall (fun p => dict_at h (fst p) (snd p)) si).
  { eapply Permutation_Forall; [apply Permutation_sym, sorted_perm|exact Hli]. }
  set (h2 := (h1 ++ [PyList (map fst si)])%list).
  assert (S1 : sorted_in i h1 = (h2, ([], Ok (List.length h1)))).
  { apply sorted_in_at; [now apply extend_old|].
    eapply Forall_impl; [|exact Hli].
    intros [r x]. apply dict_at_preserved, preserved_extend. }
  assert (A2 : apart_from a h1 h2) by apply apart_from_extend.
  assert (Ha2 : nth_error h2 a = Some (PyList [])) by now apply extend_old.
  assert (G1 : get_list (List.length h1) h2 = (h2, ([], Ok (map fst si))))
    by (apply get_list_at, extend_new).
  (* lines 59-60 *)
  destruct (append_events_at a injection si h2 [] [] Ha2 (Forall2_nil _))
    as (h3 & items3 & R3 & Ha3 & Hev3 & A3).
  { eapply Forall_impl; [|exact Hsi].
    intros [r x] D.
    apply (dict_at_preserved h1 h2); [apply preserved_extend|].
    apply (dict_at_preserved h h1); [apply preserved_extend | exact D]. }
  cbn [app] in Hev3.
  (* line 61: sorted *)
  set (sw := sorted lw (fun p => date (snd p))).
  assert (Hsw : Forall (fun p => dict_at h (fst p) (snd p)) sw).
  { eapply Permutation_Forall; [apply Permutation_sym, sorted_perm|exact Hlw]. }
  assert (A03 : apart_from a h h3).
  { apply (apart_from_trans a h h1); [exact A1|].
    now apply (apart_from_trans a h1 h2). }
  assert (P03 : preserved h h3) by now apply apart_from_preserved.
  set (h4 := (h3 ++ [PyList (map fst sw)])%list).
  assert (S2 : sorted_in w h3 = (h4, ([], Ok (List.length h3)))).
  { apply sorted_in_at; [now apply P03|].
    eapply Forall_impl; [|exact Hlw].
    intros [r x]. now apply dict_at_preserved. }
  assert (A4 : apart_from a h3 h4) by apply apart_from_extend.
  assert (Ha4 : nth_error h4 a = Some (PyList items3)) by now apply extend_old.
  assert (G2 : get_list (List.length h3) h4 = (h4, ([], Ok (map fst sw))))
    by (apply get_list_at, extend_new).
  (* lines 61-62 *)
  destruct (append_events_at a withdrawal sw h4 items3
              (map (tag injection) (map snd si)) Ha4)
    as (h5 & items5 & R5 & Ha5 & Hev5 & A5).
  { eapply Forall2_impl; [|exact Hev3].
    intros r e. now apply (event_at_apart a h3 h4 items3). }
  { eapply Forall_impl; [|exact Hsw].
    intros [r x] D. apply (dict_at_preserved h3 h4).
    - apply preserved_extend.
    - now apply (dict_at_preserved h h3). }
  (* line 63 *)
  destruct (sort_in_at h5 a items5 _ Ha5 Hev5) as (items6 & R6 & Hev6).
  set (h6 := update h5 a (PyList items6)) in *.
  assert (Ha6 : nth_error h6 a = Some (PyList items6))
    by now apply (update_same _ _ _ _ Ha5).
  (* the events are those of the exact embedding *)
  assert (E : sorted (map (tag injection) (map snd si)
                      ++ map (tag withdrawal) (map snd sw))
                     (fun e : event => date e)
              = all_events (map snd li) (map snd lw)).
  { unfold all_events, si, sw.
    now rewrite !(proj2 (keys_sorted date _)). }
  rewrite E in Hev6.
  exists h6. split.
  - unfold price_contract_in.
    assert (N : new (PyList []) h = (h1, ([], Ok a))) by reflexivity.
    rewrite (pbind_step _ _ _ _ _ N).
    rewrite (pbind_step _ _ _ _ _ S1).
    rewrite (pbind_step _ _ _ _ _ G1).
    rewrite (pbind_step _ _ _ _ _ R3).
    rewrite (pbind_step _ _ _ _ _ S2).
    rewrite (pbind_step _ _ _ _ _ G2).
    rewrite (pbind_step _ _ _ _ _ R5).
    rewrite (pbind_step _ _ _ _ _ R6).
    rewrite (pbind_step _ _ _ _ _ (get_list_at _ _ _ Ha6)).
    unfold pbind. rewrite (pass_in_at _ _ _ Hev6).
    unfold price_contract, pret.
    destruct (loop (all_events (map snd li) (map snd lw)) initial)
      as [log [st|x]]; reflexivity.
  - apply apart_from_preserved. fold a.
    apply (apart_from_trans a h h3); [exact A03|].
    apply (apart_from_trans a h3 h4); [exact A4|].
    apply (apart_from_trans a h4 h5); [exact A5|].
    apply apart_from_update.
Qed.

End ObjectsOfACall.

(** C9. A call is self-contained.  Two calls on lists that hold the same
    events, with the same parameters and oracles that answer alike on the
    dates of the events, have the same outcome, value or exception, and
    make the same queries, wherever in the store the lists and their
    dictionaries are and whatever else the store holds.  A call changes no
    object it finds: the lists and the dictionaries of the caller hold
    after it what they held before, and all it writes to are objects it
    has made itself.  Nothing it leaves behind matters to the next call: a
    second call in the store the first one has left has the same outcome
    again.  That outcome is the one of [price_contract] on what the
    dictionaries hold. *)
Theorem calls_are_self_contained
        (strptime : string -> result Z)
        (estimate estimate' : string -> result Q) (repr : Q -> string)
        (storage_monthly_fee injection_fee withdrawal_fee max_storage : Q)
        (h k : store) (i w i' w' : loc) (inj wd : list entry) :
  list_at h i inj -> list_at h w wd ->
  list_at k i' inj -> list_at k w' wd ->
  (forall x : entry, In x (inj ++ wd) -> estimate (date x) = estimate' (date x)) ->
  exists (h1 h2 : store) (out : comp Q),
    price_contract_in strptime estimate repr storage_monthly_fee injection_fee
                      withdrawal_fee max_storage i w h = (h1, out)
    /\ snd (price_contract_in strptime estimate' repr storage_monthly_fee
                              injection_fee withdrawal_fee max_storage i' w' k)
       = out
    /\ preserved h h1
    /\ list_at h1 i inj /\ list_at h1 w wd
    /\ price_contract_in strptime estimate repr storage_monthly_fee injection_fee
                         withdrawal_fee max_storage i w h1 = (h2, out)
    /\ preserved h1 h2
    /\ out = price_contract strptime estimate repr storage_monthly_fee
                            injection_fee withdrawal_fee max_storage inj wd.
Proof.
  intros Hi Hw Hi' Hw' Hsame.
  destruct (price_contract_in_at strptime estimate repr storage_monthly_fee
              injection_fee withdrawal_fee max_storage h i w inj wd Hi Hw)
    as (h1 & H1 & P1).
  destruct (price_contract_in_at strptime estimate' repr storage_monthly_fee
              injection_fee withdrawal_fee max_storage k i' w' inj wd Hi' Hw')
    as (k1 & K1 & _).
  pose proof (list_at_preserved _ _ _ _ P1 Hi) as Hi1.
  pose proof (list_at_preserved _ _ _ _ P1 Hw) as Hw1.
  destruct (price_contract_in_at strptime estimate repr storage_monthly_fee
              injection_fee withdrawal_fee max_storage h1 i w inj wd Hi1 Hw1)
    as (h2 & H2 & P2).
  exists h1, h2. eexists. split; [exact H1|].
  split.
  { rewrite K1. cbn [snd]. symmetry.
    apply (price_contract_deterministic strptime estimate estimate' repr
             storage_monthly_fee injection_fee withdrawal_fee max_storage
             inj wd Hsame). }
  repeat (split; [assumption|]). reflexivity.
Qed.

(** ** The capacity test of the machine *)

(** No float is below itself, a NaN included. *)
Lemma float_ltb_irrefl (x : PrimFloat.float) : PrimFloat.ltb x x = false.
Proof.
  rewrite FloatAxioms.ltb_spec. unfold SpecFloat.SFltb.
  assert (H : SpecFloat.SFcompare (FloatOps.Prim2SF x) (FloatOps.Prim2SF x)
              <> Some Lt).
  { destruct (FloatOps.Prim2SF x) as [s|s| |s m e];
      try (destruct s; discriminate); try discriminate.
    unfold SpecFloat.SFcompare.
    destruct s; rewrite Z.compare_refl, Pos.compare_cont_refl; discriminate. }
  destruct (SpecFloat.SFcompare (FloatOps.Prim2SF x) (FloatOps.Prim2SF x))
    as [[| |]|]; congruence.
Qed.

Section Rounded.

Variable strptime : string -> result Z.
Variable estimate : string -> result PrimFloat.float.
Variable repr : PrimFloat.float -> string.
Variables storage_monthly_fee injection_fee withdrawal_fee max_storage
  : PrimFloat.float.

Local Abbreviation charge :=
  (Binary64.charge_storage strptime storage_monthly_fee).
Local Abbreviation process :=
  (Binary64.process_event strptime estimate repr storage_monthly_fee
                          injection_fee withdrawal_fee max_storage).
Local Abbreviation loop :=
  (Binary64.event_loop strptime estimate repr storage_monthly_fee
                       injection_fee withdrawal_fee max_storage).
Local Abbreviation valuation :=
  (Binary64.price_contract strptime estimate repr storage_monthly_fee
                           injection_fee withdrawal_fee max_storage).

(** Lines 74-78 leave the inventory alone. *)
Lemma rounded_charge_storage (st st1 : Binary64.state) (e : Binary64.event) :
  charge st e = ([], Ok st1) -> Binary64.inventory st1 = Binary64.inventory st.
Proof.
  unfold Binary64.charge_storage.
  destruct (Binary64.prev_date st) as [prev|].
  - destruct (Binary64.months_between strptime prev (Binary64.date e))
      as [m|x]; cbn; [|discriminate].
    now intros [= <-].
  - now intros [= <-].
Qed.

Lemma rounded_event_loop_app (l1 l2 : list Binary64.event) (st : Binary64.state) :
  loop (l1 ++ l2) st = bind (loop l1 st) (fun st' => loop l2 st').
Proof.
  revert st. induction l1 as [|e l1 IH]; intro st.
  - simpl. unfold ret. cbn [bind]. now destruct (loop l2 st).
  - cbn [app Binary64.event_loop]. rewrite bind_assoc.
    destruct (process st e) as [l [st1|x]]; cbn [bind]; [|reflexivity].
    now rewrite IH.
Qed.

(** An injection whose carrying cost has been charged: the test of line
    82 on the rounded sum, then the query, then the update. *)
Lemma rounded_injection (st st1 : Binary64.state) (e : Binary64.event) :
  charge st e = ([], Ok st1) ->
  Binary64.etype e = injection ->
  process st e =
  if PrimFloat.ltb max_storage
                   (PrimFloat.add (Binary64.inventory st) (Binary64.volume e))
  then ([], Raise (ValueError (Binary64.capacity_msg repr (Binary64.volume e)
                                                     max_storage)))
  else match estimate (Binary64.date e) with
       | Ok price =>
           ([Binary64.date e],
            Ok (Binary64.mkState
                  (PrimFloat.add (Binary64.inventory st) (Binary64.volume e))
                  (PrimFloat.sub
                     (PrimFloat.sub (Binary64.net_value st1)
                                    (PrimFloat.mul price (Binary64.volume e)))
                     (PrimFloat.mul injection_fee (Binary64.volume e)))
                  (Some (Binary64.date e))))
       | Raise x => ([Binary64.date e], Raise x)
       end.
Proof.
  intros Hch T. unfold Binary64.process_event. rewrite Hch. cbn [bind].
  unfold Binary64.apply_event. rewrite T.
  rewrite (rounded_charge_storage _ _ _ Hch).
  destruct (PrimFloat.ltb max_storage
              (PrimFloat.add (Binary64.inventory st) (Binary64.volume e)));
    [reflexivity|].
  unfold Binary64.get_price_estimate.
  now destruct (estimate (Binary64.date e)).
Qed.

(** The valuation at an injection the pass has reached. *)
Lemma rounded_injection_reached (inj wd : list Binary64.entry)
      (pre post : list Binary64.event) (e : Binary64.event)
      (log : list string) (st : Binary64.state) :
  Binary64.reached strptime estimate repr storage_monthly_fee injection_fee
                   withdrawal_fee max_storage inj wd pre e post log st ->
  Binary64.etype e = injection ->
  (PrimFloat.ltb max_storage
                 (PrimFloat.add (Binary64.inventory st) (Binary64.volume e))
   = true
   /\ valuation inj wd
      = (log, Raise (ValueError (Binary64.capacity_msg repr (Binary64.volume e)
                                                       max_storage))))
  \/ (PrimFloat.ltb max_storage
                    (PrimFloat.add (Binary64.inventory st) (Binary64.volume e))
      = false
      /\ (exists l r,
             valuation inj wd = ((log ++ Binary64.date e :: l)%list, r))
      /\ forall price : PrimFloat.float,
          estimate (Binary64.date e) = Ok price ->
          exists st',
            loop (pre ++ [e]) Binary64.initial
            = ((log ++ [Binary64.date e])%list, Ok st')
            /\ Binary64.inventory st'
               = PrimFloat.add (Binary64.inventory st) (Binary64.volume e)).
Proof.
  intros (Hall & Hpre & st1 & Hch) T.
  pose proof (rounded_injection _ _ _ Hch T) as P.
  unfold Binary64.price_contract.
  rewrite Hall, !rounded_event_loop_app, Hpre. cbn [bind Binary64.event_loop].
  rewrite P.
  destruct (PrimFloat.ltb max_storage
              (PrimFloat.add (Binary64.inventory st) (Binary64.volume e)));
    [left|right]; (split; [reflexivity|]).
  - cbn [bind]. now rewrite app_nil_r.
  - split.
    + destruct (estimate (Binary64.date e)) as [price|x]; cbn [bind].
      * match goal with
        | |- context [loop post ?s] => destruct (loop post s) as [l [st'|y]]
        end; cbn [bind ret]; eexists _, _; rewrite ?app_nil_r;
          reflexivity.
      * now exists [], (Raise x).
    + intros price Hp. rewrite Hp. cbn [bind ret].
      eexists. rewrite app_nil_r. split; reflexivity.
Qed.

End Rounded.

(** C3, as the code has it.  At an injection the pass has reached, the
    valuation raises the capacity error exactly when the sum of inventory
    and volume that line 82 computes, a binary64 sum, is above the
    capacity; an injection whose sum is the capacity goes through, once
    the oracle has answered, and leaves the store full.  This is about the
    rounded sum: a volume larger than the one that fills the store is
    refused only if its sum still rounds to more than the capacity. *)
Theorem capacity_test_sees_the_rounded_sum
        (strptime : string -> result Z)
        (estimate : string -> result PrimFloat.float)
        (repr : PrimFloat.float -> string)
        (storage_monthly_fee injection_fee withdrawal_fee max_storage
         : PrimFloat.float)
        (inj wd : list Binary64.entry) (pre post : list Binary64.event)
        (e : Binary64.event) (log : list string) (st : Binary64.state) :
  Binary64.reached strptime estimate repr storage_monthly_fee injection_fee
                   withdrawal_fee max_storage inj wd pre e post log st ->
  Binary64.etype e = injection ->
  (PrimFloat.ltb max_storage
                 (PrimFloat.add (Binary64.inventory st) (Binary64.volume e))
   = true
   <-> Binary64.price_contract strptime estimate repr storage_monthly_fee
                               injection_fee withdrawal_fee max_storage inj wd
       = (log, Raise (ValueError (Binary64.capacity_msg repr (Binary64.volume e)
                                                        max_storage))))
  /\ (PrimFloat.add (Binary64.inventory st) (Binary64.volume e) = max_storage ->
      forall price : PrimFloat.float,
        estimate (Binary64.date e) = Ok price ->
        exists st',
          Binary64.event_loop strptime estimate repr storage_monthly_fee
                              injection_fee withdrawal_fee max_storage
                              (pre ++ [e]) Binary64.initial
          = ((log ++ [Binary64.date e])%list, Ok st')
          /\ Binary64.inventory st' = max_storage).
Proof.
  intros R T.
  destruct (rounded_injection_reached _ _ _ _ _ _ _ _ _ _ _ _ _ _ R T)
    as [[V H]|[V [(l & r & H) Hgo]]]; rewrite V.
  - split; [now split|].
    intros Full. rewrite Full, float_ltb_irrefl in V. discriminate.
  - split.
    + split; [discriminate|]. rewrite H. intros [= Hl _]. exfalso.
      now apply (app_cons_not_self log (Binary64.date e) l).
    + intros Full price Hp. destruct (Hgo price Hp) as (st' & Hst' & Hinv).
      exists st'. split; [exact Hst'|]. now rewrite Hinv.
Qed.

(** * Runs *)

(** The example of the specification: 100 in on 1 June at 2.00, 100 out on
    1 December at 3.00, fees 0.02, 0.10 and 0.05.  The value is
    -200 - 10 - 100 * 0.02 * 183 / 30.4375 + 300 - 5, about 72.98. *)
Example specification_example :
  exists v,
    run_price_contract 0.02 0.10 0.05 600000
                       [mkEntry "2023-06-01" 100] [mkEntry "2023-12-01" 100]
    = (["2023-06-01"; "2023-12-01"]%string, Ok v)
    /\ v == 85 - 100 * 0.02 * (183 / (365.25 / 12))
    /\ 72.97 < v < 72.98.
Proof.
  eexists. split; [vm_compute; reflexivity|].
  split; [reflexivity|]. split; reflexivity.
Qed.

(** A call that leaves [model] at [None] raises at the first event that
    passes its test; without events it still returns 0. *)
Example default_model_raises :
  price_contract iso_strptime no_model stub_repr 0.02 0.10 0.05 600000 [june] []
  = (["2023-06-01"%string],
     Raise (OtherError "AttributeError"
                       "'NoneType' object has no attribute 'predict'"))
  /\ price_contract iso_strptime no_model stub_repr 0.02 0.10 0.05 600000 [] []
     = ([], Ok 0).
Proof. split; reflexivity. Qed.

(** Events of one date: injections first, each group in the caller's
    order; the dates ascend. *)
Example same_date_order :
  map (fun e : event => (date e, volume e, etype e))
      (all_events [mkEntry "2023-06-01" 1; mkEntry "2023-06-01" 2;
                   mkEntry "2023-05-01" 3]
                  [mkEntry "2023-06-01" 4; mkEntry "2023-05-01" 5;
                   mkEntry "2023-06-01" 6])
  = [("2023-05-01"%string, 3, injection); ("2023-05-01"%string, 5, withdrawal);
     ("2023-06-01"%string, 1, injection); ("2023-06-01"%string, 2, injection);
     ("2023-06-01"%string, 4, withdrawal); ("2023-06-01"%string, 6, withdrawal)].
Proof. reflexivity. Qed.


(** The two hypotheses on the signs are used: the data model promises
    them, the code does not check them.  An injection of -5 goes through
    and leaves -5 in store. *)
Example negative_volume_breaks_bounds :
  run_price_contract 0.02 0.10 0.05 150 [minus_five] []
  = (["2023-06-01"%string], Ok (0 - 2 * -5 - 0.10 * -5))
  /\ ~ (forall pre post : list event,
          all_events [minus_five] [] = (pre ++ post)%list ->
          exists st,
            run_event_loop 0.02 0.10 0.05 150 pre
            = (map (fun e : event => date e) pre, Ok st)
            /\ 0 <= inventory st <= 150).
Proof.
  split; [reflexivity|].
  intro H.
  destruct (H [tag injection minus_five] [] eq_refl) as (st & Hst & Hlo & _).
  vm_compute in Hst. injection Hst as <-.
  vm_compute in Hlo. now apply Hlo.
Qed.

(** With capacity -1 a withdrawal of nothing goes through and leaves 0 in
    store, above the capacity. *)
Example negative_capacity_breaks_bounds :
  exists st,
    run_event_loop 0.02 0.10 0.05 (-1) (all_events [] [mkEntry "2023-06-01" 0])
    = (["2023-06-01"%string], Ok st)
    /\ ~ inventory st <= -1.
Proof.
  eexists. split; [vm_compute; reflexivity|].
  vm_compute. intro H. now apply H.
Qed.


(** C3 fails as stated.  A store of 600000 holds 599999.  An injection of
    1 fills it exactly and goes through.  An injection of 1 + 2^-36 is
    strictly larger, and the sum of inventory and volume is above the
    capacity; yet line 82 sees the rounded sum, which is 600000, and the
    call returns with the store at 600000. *)
Lemma larger_volume_is_accepted :
  Binary64.exactly (Binary64.volume Binary64.one_more)
  < Binary64.exactly (Binary64.volume Binary64.a_bit_more)
  /\ Binary64.exactly (Binary64.volume Binary64.nearly_full)
     + Binary64.exactly (Binary64.volume Binary64.one_more)
     == Binary64.exactly Binary64.capacity
  /\ Binary64.exactly Binary64.capacity
     < Binary64.exactly (Binary64.volume Binary64.nearly_full)
       + Binary64.exactly (Binary64.volume Binary64.a_bit_more)
  /\ (exists st,
        Binary64.pass_without_fees Binary64.capacity
          [Binary64.nearly_full; Binary64.one_more] []
        = (["2023-06-01"; "2023-07-01"]%string, Ok st)
        /\ Binary64.inventory st = Binary64.capacity)
  /\ (exists st,
        Binary64.pass_without_fees Binary64.capacity
          [Binary64.nearly_full; Binary64.a_bit_more] []
        = (["2023-06-01"; "2023-07-01"]%string, Ok st)
        /\ Binary64.inventory st = Binary64.capacity)
  /\ exists v,
      Binary64.run_without_fees Binary64.capacity
        [Binary64.nearly_full; Binary64.a_bit_more] []
      = (["2023-06-01"; "2023-07-01"]%string, Ok v).
Proof.
  split; [vm_compute; reflexivity|].
  split; [vm_compute; reflexivity|].
  split; [vm_compute; reflexivity|].
  split; [eexists; split; vm_compute; reflexivity|].
  split; [eexists; split; vm_compute; reflexivity|].
  eexists. vm_compute. reflexivity.
Qed.

Lemma capacity_test_sees_the_rounded_sum_witness :
  (PrimFloat.ltb Binary64.capacity
                 (PrimFloat.add (Binary64.inventory Binary64.after_nearly_full)
                                (Binary64.volume (Binary64.tag injection
                                                               Binary64.two_more)))
   = true
   <-> Binary64.price_contract iso_strptime Binary64.flat_estimate
                               Binary64.stub_repr PrimFloat.zero PrimFloat.zero
                               PrimFloat.zero Binary64.capacity
                               [Binary64.nearly_full; Binary64.two_more] []
       = (["2023-06-01"%string],
          Raise (ValueError
                   (Binary64.capacity_msg
                      Binary64.stub_repr
                      (Binary64.volume (Binary64.tag injection Binary64.two_more))
                      Binary64.capacity))))
  /\ PrimFloat.ltb Binary64.capacity
                   (PrimFloat.add (Binary64.inventory Binary64.after_nearly_full)
                                  (Binary64.volume Binary64.two_more))
     = true.
Proof.
  split; [|vm_compute; reflexivity].
  apply (capacity_test_sees_the_rounded_sum
           iso_strptime Binary64.flat_estimate Binary64.stub_repr
           PrimFloat.zero PrimFloat.zero PrimFloat.zero Binary64.capacity
           [Binary64.nearly_full; Binary64.two_more] []
           [Binary64.tag injection Binary64.nearly_full] []
           (Binary64.tag injection Binary64.two_more)
           ["2023-06-01"%string] Binary64.after_nearly_full).
  - split; [vm_compute; reflexivity|]. split; [vm_compute; reflexivity|].
    eexists. vm_compute. reflexivity.
  - reflexivity.
Defined.

Lemma insufficient_inventory_exactly_witness :
  reached iso_strptime stub_estimate stub_repr 0.02 0.10 0.05 150
          [june; july] [december_151]
          [tag injection june; tag injection july] (tag withdrawal december_151) []
          ["2023-06-01"; "2023-07-01"]%string after_july
  /\ inventory after_july < 151
  /\ run_price_contract 0.02 0.10 0.05 150 [june; july] [december_151]
     = (["2023-06-01"; "2023-07-01"]%string,
        Raise (ValueError "Withdraw 151/1 but only 150/1 in storage!")).
Proof.
  assert (R : reached iso_strptime stub_estimate stub_repr 0.02 0.10 0.05 150
                      [june; july] [december_151]
                      [tag injection june; tag injection july]
                      (tag withdrawal december_151) []
                      ["2023-06-01"; "2023-07-01"]%string after_july).
  { split; [reflexivity|]. split; [vm_compute; reflexivity|].
    eexists. vm_compute. reflexivity. }
  assert (L : inventory after_july < 151) by (vm_compute; reflexivity).
  split; [exact R|]. split; [exact L|].
  exact (proj1 (proj1 (insufficient_inventory_exactly
                         iso_strptime stub_estimate stub_repr 0.02 0.10 0.05 150
                         _ _ _ _ _ _ _ R eq_refl)) L).
Defined.



(** C7 fails as stated: the error kinds are one.  A refused injection and a
    refused withdrawal both reach the caller as a [ValueError], which is
    the class of the exception for a date [strptime] rejects as well; an
    [except] clause cannot tell them apart, only the text of the message
    can. *)
Lemma violations_raise_one_class :
  snd (run_price_contract 0.02 0.10 0.05 140 [june; july] [december])
  = Raise (ValueError "Injection of 50/1 exceeds max storage of 140/1!")
  /\ snd (run_price_contract 0.02 0.10 0.05 150 [june; july] [december_151])
     = Raise (ValueError "Withdraw 151/1 but only 150/1 in storage!")
  /\ snd (run_price_contract 0.02 0.10 0.05 150 [june; not_a_date] [december])
     = Raise (bad_date "2023-07-xx")
  /\ class_of (ValueError "Injection of 50/1 exceeds max storage of 140/1!")
     = class_of (ValueError "Withdraw 151/1 but only 150/1 in storage!")
  /\ class_of (ValueError "Withdraw 151/1 but only 150/1 in storage!")
     = class_of (bad_date "2023-07-xx").
Proof.
  split; [vm_compute; reflexivity|].
  split; [vm_compute; reflexivity|].
  split; [vm_compute; reflexivity|].
  split; reflexivity.
Qed.

Lemma violation_ends_valuation_witness :
  reached iso_strptime stub_estimate stub_repr 0.02 0.10 0.05 140
          [june; july] [december]
          [tag injection june] (tag injection july) [tag withdrawal december]
          ["2023-06-01"%string] after_june
  /\ violates 140 after_june (tag injection july) = true
  /\ run_price_contract 0.02 0.10 0.05 140 [june; july] [december]
     = (["2023-06-01"%string],
        Raise (ValueError "Injection of 50/1 exceeds max storage of 140/1!")).
Proof.
  assert (R : reached iso_strptime stub_estimate stub_repr 0.02 0.10 0.05 140
                      [june; july] [december]
                      [tag injection june] (tag injection july)
                      [tag withdrawal december]
                      ["2023-06-01"%string] after_june).
  { split; [reflexivity|]. split; [reflexivity|]. eexists. reflexivity. }
  assert (V : violates 140 after_june (tag injection july) = true)
    by reflexivity.
  split; [exact R|]. split; [exact V|].
  exact (proj1 (violation_ends_valuation
                  iso_strptime stub_estimate stub_repr 0.02 0.10 0.05 140
                  _ _ _ _ _ _ _ R V)).
Defined.

Lemma failing_event_not_queried_witness :
  reached iso_strptime stub_estimate stub_repr 0.02 0.10 0.05 150
          [june; july] [december_151]
          [tag injection june; tag injection july] (tag withdrawal december_151) []
          ["2023-06-01"; "2023-07-01"]%string after_july
  /\ violates 150 after_july (tag withdrawal december_151) = true
  /\ fst (run_price_contract 0.02 0.10 0.05 150 [june; july] [december_151])
     = ["2023-06-01"; "2023-07-01"]%string.
Proof.
  assert (R : reached iso_strptime stub_estimate stub_repr 0.02 0.10 0.05 150
                      [june; july] [december_151]
                      [tag injection june; tag injection july]
                      (tag withdrawal december_151) []
                      ["2023-06-01"; "2023-07-01"]%string after_july).
  { split; [reflexivity|]. split; [vm_compute; reflexivity|].
    eexists. vm_compute. reflexivity. }
  assert (V : violates 150 after_july (tag withdrawal december_151) = true)
    by reflexivity.
  split; [exact R|]. split; [exact V|].
  exact (proj1 (failing_event_not_queried
                  iso_strptime stub_estimate stub_repr 0.02 0.10 0.05 150
                  _ _ _ _ _ _ _ R V)).
Defined.

Lemma calls_are_self_contained_witness :
  exists (h1 h2 : store) (out : comp Q),
    price_contract_in iso_strptime stub_estimate stub_repr 0.02 0.10 0.05 150
                      3%nat 4%nat sample_store = (h1, out)
    /\ snd (price_contract_in iso_strptime other_estimate stub_repr
                              0.02 0.10 0.05 150 0%nat 1%nat other_store)
       = out
    /\ preserved sample_store h1
    /\ list_at h1 3%nat [july; june] /\ list_at h1 4%nat [december]
    /\ price_contract_in iso_strptime stub_estimate stub_repr 0.02 0.10 0.05 150
                         3%nat 4%nat h1 = (h2, out)
    /\ preserved h1 h2
    /\ out = price_contract iso_strptime stub_estimate stub_repr
                            0.02 0.10 0.05 150 [july; june] [december].
Proof.
  apply (calls_are_self_contained iso_strptime stub_estimate other_estimate
           stub_repr 0.02 0.10 0.05 150 sample_store other_store
           3%nat 4%nat 0%nat 1%nat [july; june] [december]).
  - eexists. split; [reflexivity|].
    repeat constructor; exists None; reflexivity.
  - eexists. split; [reflexivity|].
    repeat constructor; exists None; reflexivity.
  - eexists. split; [reflexivity|].
    repeat constructor; eexists; reflexivity.
  - eexists. split; [reflexivity|].
    repeat constructor; eexists; reflexivity.
  - intros x [<-|[<-|[<-|[]]]]; reflexivity.
Defined.

(** The sample store after the call: the five objects of the caller as
    they were, then [all_events] with its three dictionaries and the two
    lists [sorted] has made. *)
Example sample_store_after_the_call :
  fst (price_contract_in iso_strptime stub_estimate stub_repr 0.02 0.10 0.05 150
                         3%nat 4%nat sample_store)
  = (sample_store
     ++ [PyList [7; 8; 10]%nat;
         PyList [0; 1]%nat;
         PyDict june (Some injection);
         PyDict july (Some injection);
         PyList [2]%nat;
         PyDict december (Some withdrawal)])%list.
Proof. reflexivity. Qed.

(** * The rest of the file *)

(** ** [months_between] *)

Section Months.

Variable strptime : string -> result Z.

Local Abbreviation months := (months_between strptime).

Lemma months_between_parsed (a b : string) (na nb : Z) :
  strptime a = Ok na -> strptime b = Ok nb ->
  months a b = Ok (inject_Z (nb - na) / (365.25 / 12)).
Proof. intros Ha Hb. unfold months_between. now rewrite Ha, Hb. Qed.

Lemma months_between_inv (a b : string) (m : Q) :
  months a b = Ok m ->
  exists na nb, strptime a = Ok na /\ strptime b = Ok nb
                /\ m = inject_Z (nb - na) / (365.25 / 12).
Proof.
  unfold months_between.
  destruct (strptime a) as [na|]; [|discriminate].
  destruct (strptime b) as [nb|]; [|discriminate].
  intros [= <-]. now exists na, nb.
Qed.

Lemma days_over_month (z : Z) :
  inject_Z z / (365.25 / 12) == inject_Z z * (1200 # 36525).
Proof. reflexivity. Qed.

Lemma days_over_month_sign (z : Z) :
  0 <= inject_Z z / (365.25 / 12) <-> (0 <= z)%Z.
Proof.
  rewrite days_over_month. unfold Qle, Qmult, inject_Z. cbn [Qnum Qden].
  lia.
Qed.

Lemma days_over_month_zero (z : Z) :
  inject_Z z / (365.25 / 12) == 0 <-> z = 0%Z.
Proof.
  rewrite days_over_month. unfold Qeq, Qmult, inject_Z. cbn [Qnum Qden].
  lia.
Qed.

(** X2. Swapping the dates changes the sign, and a date is no time away
    from itself. *)
Theorem months_between_swap (a b : string) (m : Q) :
  months_between strptime a b = Ok m ->
  (exists m', months_between strptime b a = Ok m' /\ m' == - m)
  /\ (exists z, months_between strptime a a = Ok z /\ z == 0).
Proof.
  intro H. apply months_between_inv in H as (na & nb & Ha & Hb & ->).
  split; eexists;
    (split; [first [apply (months_between_parsed _ _ _ _ Hb Ha)
                   | apply (months_between_parsed _ _ _ _ Ha Ha)]|]).
  - rewrite !days_over_month.
    replace (na - nb)%Z with (- (nb - na))%Z by lia.
    rewrite inject_Z_opp. ring.
  - apply days_over_month_zero. lia.
Qed.

(** X3. The months are not negative exactly when the second date is not
    before the first, and are zero exactly when the dates are one day. *)
Theorem months_between_sign (a b : string) (na nb : Z) (m : Q) :
  strptime a = Ok na -> strptime b = Ok nb ->
  months_between strptime a b = Ok m ->
  (0 <= m <-> (na <= nb)%Z) /\ (m == 0 <-> na = nb).
Proof.
  intros Ha Hb H. rewrite (months_between_parsed _ _ _ _ Ha Hb) in H.
  injection H as <-. split.
  - rewrite days_over_month_sign. lia.
  - rewrite days_over_month_zero. lia.
Qed.

End Months.

(** ** More of [price_contract] *)

Section Outcomes.

Variable strptime : string -> result Z.
Variable estimate : string -> result Q.
Variable repr : Q -> string.
Variables storage_monthly_fee injection_fee withdrawal_fee max_storage : Q.

Local Abbreviation charge := (charge_storage strptime storage_monthly_fee).
Local Abbreviation process :=
  (process_event strptime estimate repr storage_monthly_fee injection_fee
                 withdrawal_fee max_storage).
Local Abbreviation loop :=
  (event_loop strptime estimate repr storage_monthly_fee injection_fee
              withdrawal_fee max_storage).
Local Abbreviation valuation :=
  (price_contract strptime estimate repr storage_monthly_fee injection_fee
                  withdrawal_fee max_storage).

(** After an event the previous date is the date of that event. *)
Lemma event_loop_last_date (pre : list event) (e0 : event) (st : state)
      (log : list string) :
  loop (pre ++ [e0]) initial = (log, Ok st) -> prev_date st = Some (date e0).
Proof.
  rewrite event_loop_app. intro H.
  apply bind_ok in H as (l1 & s1 & l2 & _ & H2 & _).
  cbn [event_loop] in H2.
  apply bind_ok in H2 as (l3 & s2 & l4 & H3 & H4 & _).
  apply process_event_ok in H3 as (_ & _ & _ & _ & _ & _ & P).
  cbn in H4. injection H4 as _ <-. exact P.
Qed.

Lemma charge_storage_raises (st : state) (e : event) (p : string) (x : exn) :
  prev_date st = Some p ->
  months_between strptime p (date e) = Raise x ->
  charge st e = ([], Raise x).
Proof. intros P M. unfold charge_storage. now rewrite P, M. Qed.

(** X4. A date [strptime] rejects ends the valuation at the second of the
    two events it lies between: the call raises what [strptime] raises, the
    oracle is not asked about that event and its test is not made,
    whatever its volume. *)
Theorem date_error_ends_valuation (inj wd : list entry) (pre post : list event)
        (e0 e : event) (log : list string) (st : state) (x : exn) :
  all_events inj wd = (pre ++ e0 :: e :: post)%list ->
  event_loop strptime estimate repr storage_monthly_fee injection_fee
             withdrawal_fee max_storage (pre ++ [e0]) initial = (log, Ok st) ->
  months_between strptime (date e0) (date e) = Raise x ->
  price_contract strptime estimate repr storage_monthly_fee injection_fee
                 withdrawal_fee max_storage inj wd
  = (log, Raise x)
  /\ log = map (fun ev : event => date ev) (pre ++ [e0]).
Proof.
  intros Hall Hpre M.
  assert (Hall' : all_events inj wd = ((pre ++ [e0]) ++ e :: post)%list)
    by now rewrite <- app_assoc.
  pose proof (event_loop_last_date _ _ _ _ Hpre) as P.
  rewrite (price_contract_split _ _ _ _ _ _ _ _ _ _ _ _ _ _ Hall' Hpre).
  rewrite (process_event_uncharged _ _ _ _ _ _ _ _ _ _
             (charge_storage_raises _ _ _ _ P M)).
  rewrite app_nil_r. split; [reflexivity|].
  now apply event_loop_ok_log in Hpre.
Qed.

(** X6. When the oracle raises for an event that has passed its test, the
    call raises the same exception, and the query is the last one made. *)
Theorem oracle_error_ends_valuation (inj wd : list entry) (pre post : list event)
        (e : event) (log : list string) (st : state) (x : exn) :
  reached strptime estimate repr storage_monthly_fee injection_fee
          withdrawal_fee max_storage inj wd pre e post log st ->
  violates max_storage st e = false ->
  estimate (date e) = Raise x ->
  price_contract strptime estimate repr storage_monthly_fee injection_fee
                 withdrawal_fee max_storage inj wd
  = ((log ++ [date e])%list, Raise x).
Proof.
  intros (Hall & Hpre & st1 & Hch) V E.
  erewrite price_contract_reached by eassumption.
  destruct (charge_storage_cases strptime storage_monthly_fee st e)
    as [[y Hy]|[st1' [H1 [Hi _]]]]; [congruence|].
  assert (st1' = st1) as -> by congruence.
  now rewrite (violates_same_inventory _ _ _ _ Hi), V, E.
Qed.

End Outcomes.

(** ** Schedules *)

Lemma all_events_keyed (inj wd : list entry) (d : string) :
  keyed (fun e : event => date e) d (all_events inj wd)
  = (map (tag injection) (keyed date d inj)
     ++ map (tag withdrawal) (keyed date d wd))%list.
Proof.
  unfold all_events.
  now rewrite sorted_keyed, keyed_app, !keyed_tag, !sorted_keyed.
Qed.

Lemma all_events_length (inj wd : list entry) :
  List.length (all_events inj wd) = (List.length inj + List.length wd)%nat.
Proof.
  rewrite (Permutation_length (all_events_perm inj wd)).
  now rewrite length_app, !length_map.
Qed.

Lemma all_events_nil (inj wd : list entry) :
  all_events inj wd = [] -> inj = [] /\ wd = [].
Proof.
  intro H. pose proof (all_events_length inj wd) as L. rewrite H in L.
  destruct inj, wd; try discriminate. now split.
Qed.

Lemma keyed_perm {A : Type} (key : A -> string) (d : string) (l l' : list A) :
  Permutation l l' -> Permutation (keyed key d l) (keyed key d l').
Proof.
  induction 1 as [|x l l' _ IH|x y l|l1 l2 l3 _ IH1 _ IH2]; unfold keyed in *;
    cbn [filter].
  - constructor.
  - destruct (String.eqb (key x) d); [now constructor | exact IH].
  - destruct (String.eqb (key x) d), (String.eqb (key y) d);
      try reflexivity. apply perm_swap.
  - now transitivity (filter (fun a : A => String.eqb (key a) d) l2).
Qed.

Lemma keyed_nodup {A : Type} (key : A -> string) (d : string) (l : list A) :
  NoDup (map key l) -> (List.length (keyed key d l) <= 1)%nat.
Proof.
  induction l as [|x l IH]; cbn [map]; intro N; [cbn; lia|].
  inversion N as [|? ? Hx Hl]; subst.
  destruct (String.eqb_spec (key x) d) as [<-|Hd].
  - rewrite keyed_head. cbn [List.length].
    destruct (keyed key (key x) l) as [|y r] eqn:K; [cbn; lia|].
    exfalso. apply Hx.
    assert (I : In y (keyed key (key x) l)) by (rewrite K; now left).
    apply keyed_in in I as [I <-]. now apply in_map.
  - rewrite keyed_other by exact Hd. now apply IH.
Qed.

Lemma short_perm_eq {A : Type} (l l' : list A) :
  Permutation l l' -> (List.length l <= 1)%nat -> l = l'.
Proof.
  intros P L. destruct l as [|a [|b r]]; cbn in L; try lia.
  - now apply Permutation_nil in P.
  - now apply Permutation_length_1_inv in P.
Qed.

(** X11. When no two injections share a date and no two withdrawals share
    a date, the order in which the caller lists them does not matter: the
    merged list is the same. *)
Theorem listing_order_is_irrelevant (inj inj' wd wd' : list entry) :
  NoDup (map date inj) -> NoDup (map date wd) ->
  Permutation inj inj' -> Permutation wd wd' ->
  all_events inj wd = all_events inj' wd'.
Proof.
  intros Ni Nw Pi Pw.
  apply (stable_sort_unique (fun e : event => date e));
    [apply sorted_sorted | apply sorted_sorted |].
  intro d. rewrite !all_events_keyed.
  rewrite (short_perm_eq _ _ (keyed_perm date d _ _ Pi) (keyed_nodup date d _ Ni)).
  rewrite (short_perm_eq _ _ (keyed_perm date d _ _ Pw) (keyed_nodup date d _ Nw)).
  reflexivity.
Qed.

Section Schedules.

Variable strptime : string -> result Z.
Variable estimate : string -> result Q.
Variable repr : Q -> string.
Variables storage_monthly_fee injection_fee withdrawal_fee max_storage : Q.

Local Abbreviation charge := (charge_storage strptime storage_monthly_fee).
Local Abbreviation process :=
  (process_event strptime estimate repr storage_monthly_fee injection_fee
                 withdrawal_fee max_storage).
Local Abbreviation loop :=
  (event_loop strptime estimate repr storage_monthly_fee injection_fee
              withdrawal_fee max_storage).
Local Abbreviation valuation :=
  (price_contract strptime estimate repr storage_monthly_fee injection_fee
                  withdrawal_fee max_storage).

(** X7. A call that returns a value has asked the oracle about every event,
    once each and in the merged order: as many queries as the caller listed
    events, on the dates the caller listed. *)
Theorem returned_value_queries_every_event (inj wd : list entry)
        (log : list string) (v : Q) :
  price_contract strptime estimate repr storage_monthly_fee injection_fee
                 withdrawal_fee max_storage inj wd = (log, Ok v) ->
  log = map (fun e : event => date e) (all_events inj wd)
  /\ Permutation log (map date inj ++ map date wd)
  /\ List.length log = (List.length inj + List.length wd)%nat.
Proof.
  intro H. apply price_contract_ok in H as (st & Hloop & _).
  apply event_loop_ok_log in Hloop as ->.
  split; [reflexivity|]. split.
  - rewrite (Permutation_map (fun e : event => date e) (all_events_perm inj wd)).
    rewrite map_app, !map_map. reflexivity.
  - now rewrite length_map, all_events_length.
Qed.

(** An event that goes through has had its price. *)
Lemma process_event_priced (st st' : state) (e : event) (log : list string) :
  process st e = (log, Ok st') -> exists price, estimate (date e) = Ok price.
Proof.
  destruct (charge_storage_cases strptime storage_monthly_fee st e)
    as [[x Hx]|[st1 [H1 _]]].
  - rewrite (process_event_uncharged _ _ _ _ _ _ _ _ _ _ Hx). discriminate.
  - rewrite (process_event_charged _ _ _ _ _ _ _ _ _ _ H1).
    destruct (violates max_storage st1 e); [discriminate|].
    destruct (estimate (date e)) as [price|]; [|discriminate].
    intros _. now exists price.
Qed.

(** X10. Without an oracle that answers, nothing but the empty schedule is
    valued: a call that returns a value had no events. *)
Theorem no_oracle_no_value (inj wd : list entry) (log : list string) (v : Q) :
  (forall d : string, exists x : exn, estimate d = Raise x) ->
  price_contract strptime estimate repr storage_monthly_fee injection_fee
                 withdrawal_fee max_storage inj wd = (log, Ok v) ->
  inj = [] /\ wd = [] /\ log = [] /\ v = 0.
Proof.
  intros Hno H. apply price_contract_ok in H as (st & Hloop & ->).
  destruct (all_events inj wd) as [|e rest] eqn:A.
  - apply all_events_nil in A as [-> ->].
    cbn in Hloop. injection Hloop as <- <-. now repeat split.
  - exfalso. cbn [event_loop] in Hloop.
    apply bind_ok in Hloop as (l1 & s1 & l2 & H1 & _ & _).
    apply process_event_priced in H1 as [price Hp].
    destruct (Hno (date e)) as [x Hx]. congruence.
Qed.

(** The first event meets the initial state and no carrying cost. *)
Lemma first_event_reached (inj wd : list entry) (e : event) (post : list event) :
  all_events inj wd = e :: post ->
  reached strptime estimate repr storage_monthly_fee injection_fee
          withdrawal_fee max_storage inj wd [] e post [] initial.
Proof.
  intro H. split; [exact H|]. split; [reflexivity|].
  exists initial. reflexivity.
Qed.

(** X12. Selling before buying is refused: when some withdrawal is dated
    before every injection and every withdrawal has a positive volume, the
    call raises the inventory error at its first event, before any query. *)
Theorem withdrawal_first_is_refused (inj wd : list entry) (w : entry) :
  In w wd ->
  (forall i : entry, In i inj -> String.ltb (date w) (date i) = true) ->
  (forall w' : entry, In w' wd -> 0 < volume w') ->
  exists w' : entry,
    In w' wd
    /\ price_contract strptime estimate repr storage_monthly_fee injection_fee
                      withdrawal_fee max_storage inj wd
       = ([], Raise (ValueError (inventory_msg repr (volume w') 0))).
Proof.
  intros Hw Hearly Hpos.
  assert (Iw : In (tag withdrawal w) (all_events inj wd)).
  { apply (Permutation_in _ (Permutation_sym (all_events_perm inj wd))).
    apply in_or_app. right. now apply in_map. }
  destruct (all_events inj wd) as [|e post] eqn:A; [contradiction|].
  assert (Le : key_le (date e) (date w)).
  { destruct Iw as [->|Iw]; [apply KeyOrder.le_refl|].
    pose proof (sorted_sorted (fun ev : event => date ev)
                  (map (tag injection) (sorted inj date)
                   ++ map (tag withdrawal) (sorted wd date))) as S.
    fold (all_events inj wd) in S. rewrite A in S.
    inversion S as [|? ? _ F]; subst. rewrite Forall_forall in F.
    exact (F _ Iw). }
  assert (Ie : In e (map (tag injection) inj ++ map (tag withdrawal) wd)).
  { apply (Permutation_in _ (all_events_perm inj wd)). rewrite A. now left. }
  apply in_app_or in Ie as [Ie|Ie]; apply in_map_iff in Ie as (y & <- & Hy).
  - exfalso. specialize (Hearly y Hy). unfold key_le in Le.
    cbn [tag entry_of date] in Le. congruence.
  - exists y. split; [exact Hy|].
    pose proof (first_event_reached _ _ _ _ A) as R.
    destruct (reached_outcome _ _ _ _ _ _ _ _ _ _ _ _ _ _ R) as [[V H]|[V _]].
    + rewrite H. reflexivity.
    + exfalso. unfold violates in V. cbn in V.
      apply Qltb_ge in V. specialize (Hpos y Hy).
      apply (Qlt_not_le _ _ Hpos). exact V.
Qed.

End Schedules.

(** X5. The date of a schedule of one event is never parsed: whatever
    [strptime] makes of it, the outcome is the same. *)
Theorem single_event_date_is_not_parsed
        (strptime1 strptime2 : string -> result Z)
        (estimate : string -> result Q) (repr : Q -> string)
        (storage_monthly_fee injection_fee withdrawal_fee max_storage : Q)
        (inj wd : list entry) :
  (List.length inj + List.length wd = 1)%nat ->
  price_contract strptime1 estimate repr storage_monthly_fee injection_fee
                 withdrawal_fee max_storage inj wd
  = price_contract strptime2 estimate repr storage_monthly_fee injection_fee
                   withdrawal_fee max_storage inj wd.
Proof.
  intro L. rewrite <- all_events_length in L.
  destruct (all_events inj wd) as [|e [|e' r]] eqn:A; try discriminate.
  unfold price_contract. rewrite A. reflexivity.
Qed.

Section Storage.

Variable strptime : string -> result Z.
Variable estimate : string -> result Q.
Variable repr : Q -> string.
Variables storage_monthly_fee injection_fee withdrawal_fee max_storage : Q.

Local Abbreviation charge := (charge_storage strptime storage_monthly_fee).
Local Abbreviation process :=
  (process_event strptime estimate repr storage_monthly_fee injection_fee
                 withdrawal_fee max_storage).
Local Abbreviation loop :=
  (event_loop strptime estimate repr storage_monthly_fee injection_fee
              withdrawal_fee max_storage).

(** An event that goes through leaves no less than nothing in store, when
    its volume is not negative and there was no less than nothing. *)
Lemma process_event_not_negative (st st' : state) (e : event) (log : list string) :
  0 <= volume e -> 0 <= inventory st ->
  process st e = (log, Ok st') ->
  0 <= inventory st'.
Proof.
  intros Hv Hi H.
  apply process_event_ok in H as (_ & st1 & Hch & V & Hinv & _).
  destruct (charge_storage_cases strptime storage_monthly_fee st e)
    as [[x Hx]|[st1' [H1 [Hst1 _]]]]; [congruence|].
  assert (st1' = st1) as -> by congruence.
  rewrite (violates_same_inventory _ _ _ _ Hst1) in V.
  rewrite Hinv. unfold violates in V. unfold delta.
  destruct (etype e); [lra|]. apply Qltb_ge in V. lra.
Qed.

Lemma event_loop_not_negative (events : list event) :
  forall (st st' : state) (log : list string),
    Forall (fun e : event => 0 <= volume e) events ->
    0 <= inventory st ->
    loop events st = (log, Ok st') ->
    0 <= inventory st'.
Proof.
  induction events as [|e rest IH]; intros st st' log Hvol Hi H.
  - cbn in H. now injection H as _ <-.
  - cbn [event_loop] in H.
    apply bind_ok in H as (l1 & s1 & l2 & H1 & H2 & _).
    inversion Hvol as [|? ? He Hrest]; subst.
    apply (IH s1 st' l2 Hrest); [|exact H2].
    now apply (process_event_not_negative st s1 e l1).
Qed.

(** A list is empty or ends with an element. *)
Lemma exists_last_or_nil {A : Type} (l : list A) :
  l = [] \/ exists l' a, l = (l' ++ [a])%list.
Proof.
  induction l as [|a l' _] using rev_ind; [now left|].
  right. now exists l', a.
Qed.

(** Two neighbours of a sorted list stand in its order. *)
Lemma neighbours_in_order {A : Type} (R : A -> A -> Prop) (l1 l2 : list A)
      (a b : A) :
  StronglySorted R (l1 ++ a :: b :: l2) -> R a b.
Proof.
  induction l1 as [|x l1 IH]; cbn [app]; intro S;
    inversion S as [|? ? S' F]; subst.
  - now inversion F.
  - now apply IH.
Qed.

(** X14. Storage only costs.  When no volume and not the storage fee is
    negative, and [strptime] numbers the dates of the listed events in the
    order of their keys, the carrying cost charged on reaching an event
    never raises the value: the value after lines 74-78 is at most the
    value before, and the inventory is as it was. *)
Theorem carrying_charge_is_a_cost (inj wd : list entry)
        (pre post : list event) (e : event) (log : list string)
        (st st1 : state) :
  0 <= storage_monthly_fee ->
  Forall (fun x : entry => 0 <= volume x) inj ->
  Forall (fun x : entry => 0 <= volume x) wd ->
  in_calendar_order strptime (inj ++ wd) ->
  all_events inj wd = (pre ++ e :: post)%list ->
  loop pre initial = (log, Ok st) ->
  charge st e = ([], Ok st1) ->
  net_value st1 <= net_value st /\ inventory st1 = inventory st.
Proof.
  intros Hfee Hi Hw Hord Hall Hpre Hch.
  pose proof (all_events_volumes inj wd Hi Hw) as Hvol.
  rewrite Hall in Hvol. apply Forall_app in Hvol as [Hvpre _].
  assert (Hinv : 0 <= inventory st).
  { apply (event_loop_not_negative pre initial st log Hvpre); [|exact Hpre].
    apply Qle_refl. }
  destruct (charge_storage_cases strptime storage_monthly_fee st e)
    as [[x Hx]|[st1' [H1 [Hsame _]]]]; [congruence|].
  assert (st1' = st1) as -> by congruence.
  split; [|exact Hsame].
  destruct (exists_last_or_nil pre) as [->|(pre' & e0 & ->)].
  - cbn in Hpre. injection Hpre as _ <-. cbn in Hch.
    injection Hch as <-. apply Qle_refl.
  - pose proof (event_loop_last_date _ _ _ _ _ _ _ _ _ _ _ Hpre) as P.
    unfold charge_storage in Hch. rewrite P in Hch.
    destruct (months_between strptime (date e0) (date e)) as [m|x] eqn:M;
      [|discriminate].
    cbn in Hch. injection Hch as <-. cbn [net_value].
    apply months_between_inv in M as (na & nb & Ha & Hb & ->).
    assert (In0 : In e0 (all_events inj wd))
      by (rewrite Hall; apply in_or_app; left; apply in_or_app; right; now left).
    assert (In1 : In e (all_events inj wd))
      by (rewrite Hall; apply in_or_app; right; now left).
    apply all_events_dates in In0 as (x0 & Hx0 & D0).
    apply all_events_dates in In1 as (x1 & Hx1 & D1).
    assert (K : key_le (date e0) (date e)).
    { pose proof (sorted_sorted (fun ev : event => date ev)
                    (map (tag injection) (sorted inj date)
                     ++ map (tag withdrawal) (sorted wd date))) as S.
      fold (all_events inj wd) in S. rewrite Hall, <- app_assoc in S.
      exact (neighbours_in_order _ _ _ _ _ S). }
    rewrite <- D0 in Ha, K. rewrite <- D1 in Hb, K.
    pose proof (Hord x0 x1 na nb Hx0 Hx1 Ha Hb K) as Hdays.
    assert (0 <= inject_Z (nb - na) / (365.25 / 12))
      by (apply days_over_month_sign; lia).
    assert (0 <= inventory st * storage_monthly_fee
                 * (inject_Z (nb - na) / (365.25 / 12))).
    { apply Qmult_le_0_compat; [apply Qmult_le_0_compat|]; assumption. }
    lra.
Qed.

End Storage.

(** ** The button *)

Lemma all_events_pair (i w : entry) :
  all_events [i] [w]
  = if String.ltb (date w) (date i)
    then [tag withdrawal w; tag injection i]
    else [tag injection i; tag withdrawal w].
Proof. reflexivity. Qed.

Section Button.

Variable strptime : string -> result Z.
Variable estimate : string -> result Q.
Variable repr : Q -> string.
Variable float : string -> result Q.
Variable money : Q -> string.

Local Abbreviation press := (calculate_value strptime estimate repr float money).

Lemma calculate_value_read (self : fields)
      (inj_volume wth_volume storage_fee inj_fee wth_fee max_sto : Q) :
  numbers_read float self inj_volume wth_volume storage_fee inj_fee wth_fee
               max_sto ->
  press self
  = shown money
      (price_contract strptime estimate repr storage_fee inj_fee wth_fee max_sto
                      [mkEntry (inj_date_entry self) inj_volume]
                      [mkEntry (wth_date_entry self) wth_volume]).
Proof.
  unfold numbers_read, number_entries. cbn [map].
  intros [= H1 H2 H3 H4 H5 H6].
  unfold calculate_value. rewrite H1, H2, H3, H4, H5, H6.
  unfold lift, shown. cbn [bind].
  destruct (price_contract strptime estimate repr storage_fee inj_fee wth_fee
              max_sto [mkEntry (inj_date_entry self) inj_volume]
              [mkEntry (wth_date_entry self) wth_volume]) as [log [val|[ve|n m]]];
    reflexivity.
Qed.

(** X15. Once the numbers are read, the button lets no [ValueError] out:
    it shows the message after "Error: ", as it shows a value after
    "Contract Value: $".  What it does let out is another class of
    exception, raised below the valuation. *)
Theorem calculate_value_shows_value_errors (self : fields)
        (inj_volume wth_volume storage_fee inj_fee wth_fee max_sto : Q)
        (log : list string) :
  numbers_read float self inj_volume wth_volume storage_fee inj_fee wth_fee
               max_sto ->
  let valuation :=
    price_contract strptime estimate repr storage_fee inj_fee wth_fee max_sto
                   [mkEntry (inj_date_entry self) inj_volume]
                   [mkEntry (wth_date_entry self) wth_volume] in
  (forall ve : string,
      valuation = (log, Raise (ValueError ve)) ->
      calculate_value strptime estimate repr float money self
      = (log, Ok ("Error: " ++ ve)%string))
  /\ (forall val : Q,
        valuation = (log, Ok val) ->
        calculate_value strptime estimate repr float money self
        = (log, Ok ("Contract Value: $" ++ money val)%string))
  /\ (forall x : exn,
        calculate_value strptime estimate repr float money self = (log, Raise x) ->
        valuation = (log, Raise x) /\ exists name msg, x = OtherError name msg).
Proof.
  intros N valuation. rewrite (calculate_value_read _ _ _ _ _ _ _ N).
  fold valuation. split; [|split].
  - now intros ve ->.
  - now intros val ->.
  - intros x. destruct valuation as [l [val|[ve|n m]]]; cbn [shown];
      try discriminate.
    intros [= -> <-]. split; [reflexivity|]. now exists n, m.
Qed.

Lemma calculate_value_unread (self : fields) (x : exn) :
  first_raised (map float (number_entries self)) = Some x ->
  press self = ([], Raise x).
Proof.
  unfold number_entries, calculate_value. cbn [map first_raised].
  destruct (float (inj_volume_entry self)); [|now intros [= ->]].
  destruct (float (wth_volume_entry self)); [|now intros [= ->]].
  destruct (float (storage_fee_entry self)); [|now intros [= ->]].
  destruct (float (injection_fee_entry self)); [|now intros [= ->]].
  destruct (float (withdrawal_fee_entry self)); [|now intros [= ->]].
  destruct (float (max_storage_entry self)); [|now intros [= ->]].
  discriminate.
Qed.

(** X16. A number that [float] cannot read is not caught: the exception of
    the first such field, in the order of lines 170-177, leaves the method,
    no text is shown, and the valuation is not started. *)
Theorem calculate_value_bad_number (self : fields) (x : exn) :
  first_raised (map float (number_entries self)) = Some x ->
  calculate_value strptime estimate repr float money self = ([], Raise x)
  /\ forall text : string,
      calculate_value strptime estimate repr float money self <> ([], Ok text).
Proof.
  intro H. rewrite (calculate_value_unread _ _ H). split; [reflexivity|].
  discriminate.
Qed.

(** X18. When the withdrawal date sorts before the injection date and the
    withdrawal volume is positive, the button shows the inventory error,
    with an empty store, and the oracle is not asked. *)
Theorem calculate_value_withdrawal_first (self : fields)
        (inj_volume wth_volume storage_fee inj_fee wth_fee max_sto : Q) :
  numbers_read float self inj_volume wth_volume storage_fee inj_fee wth_fee
               max_sto ->
  String.ltb (wth_date_entry self) (inj_date_entry self) = true ->
  0 < wth_volume ->
  calculate_value strptime estimate repr float money self
  = ([], Ok ("Error: " ++ inventory_msg repr wth_volume 0)%string).
Proof.
  intros N Hd Hv. rewrite (calculate_value_read _ _ _ _ _ _ _ N).
  unfold price_contract. rewrite all_events_pair. cbn [date]. rewrite Hd.
  cbn [event_loop]. unfold process_event at 1.
  unfold charge_storage at 1. cbn [initial prev_date ret bind].
  rewrite apply_event_cases. unfold violates, diagnostic.
  cbn [tag etype entry_of volume initial inventory].
  replace (Qltb 0 wth_volume) with true by (symmetry; now apply Qltb_lt).
  reflexivity.
Qed.

(** X19. When the injection comes first and its volume is above the
    capacity, the button shows the capacity error, and the oracle is not
    asked. *)
Theorem calculate_value_over_capacity (self : fields)
        (inj_volume wth_volume storage_fee inj_fee wth_fee max_sto : Q) :
  numbers_read float self inj_volume wth_volume storage_fee inj_fee wth_fee
               max_sto ->
  String.ltb (wth_date_entry self) (inj_date_entry self) = false ->
  max_sto < inj_volume ->
  calculate_value strptime estimate repr float money self
  = ([], Ok ("Error: " ++ capacity_msg repr inj_volume max_sto)%string).
Proof.
  intros N Hd Hv. rewrite (calculate_value_read _ _ _ _ _ _ _ N).
  unfold price_contract. rewrite all_events_pair. cbn [date]. rewrite Hd.
  cbn [event_loop]. unfold process_event at 1.
  unfold charge_storage at 1. cbn [initial prev_date ret bind].
  rewrite apply_event_cases. unfold violates, diagnostic.
  cbn [tag etype entry_of volume initial inventory].
  replace (Qltb max_sto (0 + inj_volume)) with true; [reflexivity|].
  symmetry. apply Qltb_lt. now rewrite Qplus_0_l.
Qed.


End Button.

(** ** Runs of the rest *)

Lemma months_between_swap_witness :
  (exists m', months_between iso_strptime "2023-12-01" "2023-06-01" = Ok m'
              /\ m' == - (inject_Z 183 / (365.25 / 12)))
  /\ (exists z, months_between iso_strptime "2023-06-01" "2023-06-01" = Ok z
                /\ z == 0).
Proof.
  apply (months_between_swap iso_strptime "2023-06-01" "2023-12-01").
  reflexivity.
Defined.

Lemma months_between_sign_witness :
  (0 <= inject_Z 183 / (365.25 / 12) <-> (738672 <= 738855)%Z)
  /\ (inject_Z 183 / (365.25 / 12) == 0 <-> 738672%Z = 738855%Z).
Proof.
  apply (months_between_sign iso_strptime "2023-06-01" "2023-12-01");
    reflexivity.
Defined.

Lemma date_error_ends_valuation_witness :
  run_price_contract 0.02 0.10 0.05 150 [june; not_a_date] [december]
  = (["2023-06-01"%string], Raise (bad_date "2023-07-xx"))
  /\ ["2023-06-01"%string]
     = map (fun ev : event => date ev) ([] ++ [tag injection june]).
Proof.
  apply (date_error_ends_valuation iso_strptime stub_estimate stub_repr
           0.02 0.10 0.05 150 [june; not_a_date] [december]
           [] [tag withdrawal december]
           (tag injection june) (tag injection not_a_date)
           ["2023-06-01"%string] after_june (bad_date "2023-07-xx"));
    reflexivity.
Defined.

Lemma single_event_date_is_not_parsed_witness :
  price_contract iso_strptime stub_estimate stub_repr 0.02 0.10 0.05 150
                 [not_a_date] []
  = price_contract (fun s => Raise (bad_date s)) stub_estimate stub_repr
                   0.02 0.10 0.05 150 [not_a_date] [].
Proof.
  apply (single_event_date_is_not_parsed iso_strptime
           (fun s => Raise (bad_date s))).
  reflexivity.
Defined.

Lemma oracle_error_ends_valuation_witness :
  price_contract iso_strptime no_model stub_repr 0.02 0.10 0.05 150
                 [june; july] [december]
  = (([] ++ ["2023-06-01"%string])%list,
     Raise (OtherError "AttributeError"
                       "'NoneType' object has no attribute 'predict'")).
Proof.
  apply (oracle_error_ends_valuation iso_strptime no_model stub_repr
           0.02 0.10 0.05 150 [june; july] [december]
           [] [tag injection july; tag withdrawal december]
           (tag injection june) [] initial).
  - split; [reflexivity|]. split; [reflexivity|]. eexists. reflexivity.
  - reflexivity.
  - reflexivity.
Defined.

Lemma returned_value_queries_every_event_witness :
  ["2023-06-01"; "2023-07-01"; "2023-12-01"]%string
  = map (fun e : event => date e) (all_events [june; july] [december])
  /\ Permutation ["2023-06-01"; "2023-07-01"; "2023-12-01"]%string
                 (map date [june; july] ++ map date [december])
  /\ List.length ["2023-06-01"; "2023-07-01"; "2023-12-01"]%string
     = (List.length [june; july] + List.length [december])%nat.
Proof.
  apply (returned_value_queries_every_event iso_strptime stub_estimate stub_repr
           0.02 0.10 0.05 150 [june; july] [december] _
           (2140506534375000000000 # 13340756250000000000)).
  vm_compute. reflexivity.
Defined.

Lemma no_oracle_no_value_witness :
  (@nil entry) = [] /\ (@nil entry) = [] /\ (@nil string) = [] /\ 0 = 0.
Proof.
  apply (no_oracle_no_value iso_strptime no_model stub_repr 0.02 0.10 0.05 150
           [] [] [] 0).
  - intro d. eexists. reflexivity.
  - reflexivity.
Defined.

Lemma listing_order_is_irrelevant_witness :
  all_events [june; july] [december] = all_events [july; june] [december].
Proof.
  apply listing_order_is_irrelevant.
  - repeat constructor; simpl; intuition discriminate.
  - repeat constructor; simpl; intuition discriminate.
  - apply perm_swap.
  - apply Permutation_refl.
Defined.

Lemma withdrawal_first_is_refused_witness :
  exists w' : entry,
    In w' [early_withdrawal]
    /\ run_price_contract 0.02 0.10 0.05 150 [july] [early_withdrawal]
       = ([], Raise (ValueError (inventory_msg stub_repr (volume w') 0))).
Proof.
  apply (withdrawal_first_is_refused iso_strptime stub_estimate stub_repr
           0.02 0.10 0.05 150 [july] [early_withdrawal] early_withdrawal).
  - now left.
  - intros i [<-|[]]. reflexivity.
  - intros w' [<-|[]]. reflexivity.
Defined.

Lemma iso_in_calendar_order (l : list entry) : in_calendar_order iso_strptime l.
Proof.
  intros x y na nb _ _ Ha Hb K. now apply (IsoDates.iso_key_le _ _ _ _ Ha Hb).
Qed.

Lemma carrying_charge_is_a_cost_witness :
  net_value (mkState (0 + 100)
                     (0 - 2 * 100 - 0.10 * 100
                      - (0 + 100) * 0.02 * (inject_Z 30 / (365.25 / 12)))
                     (Some "2023-06-01"%string))
  <= net_value after_june
  /\ (0 + 100 : Q) = inventory after_june.
Proof.
  apply (carrying_charge_is_a_cost iso_strptime stub_estimate stub_repr
           0.02 0.10 0.05 150 [june; july] [december]
           [tag injection june] [tag withdrawal december] (tag injection july)
           ["2023-06-01"%string] after_june).
  - unfold Qle. simpl. lia.
  - repeat constructor; unfold Qle; simpl; lia.
  - repeat constructor; unfold Qle; simpl; lia.
  - apply iso_in_calendar_order.
  - reflexivity.
  - reflexivity.
  - reflexivity.
Defined.

Lemma calculate_value_shows_value_errors_witness :
  numbers_read stub_float small_store_fields 200000 200000 0.02 0.10 0.05 100
  /\ run_calculate_value small_store_fields
     = ([], Ok "Error: Injection of 200000/1 exceeds max storage of 100/1!"%string).
Proof.
  assert (N : numbers_read stub_float small_store_fields
                           200000 200000 0.02 0.10 0.05 100) by reflexivity.
  split; [exact N|].
  apply (proj1 (calculate_value_shows_value_errors
                  iso_strptime stub_estimate stub_repr stub_float stub_repr
                  small_store_fields _ _ _ _ _ _ [] N)).
  reflexivity.
Defined.

Lemma calculate_value_bad_number_witness :
  run_calculate_value misprinted_fields = ([], Raise (bad_float "lots"))
  /\ forall text : string,
      run_calculate_value misprinted_fields <> ([], Ok text).
Proof.
  apply (calculate_value_bad_number iso_strptime stub_estimate stub_repr
           stub_float stub_repr misprinted_fields).
  reflexivity.
Defined.


Lemma calculate_value_withdrawal_first_witness :
  run_calculate_value exchanged_fields
  = ([], Ok "Error: Withdraw 200000/1 but only 0/1 in storage!"%string).
Proof.
  apply (calculate_value_withdrawal_first iso_strptime stub_estimate stub_repr
           stub_float stub_repr exchanged_fields
           200000 200000 0.02 0.10 0.05 600000);
    reflexivity.
Defined.

Lemma calculate_value_over_capacity_witness :
  run_calculate_value small_store_fields
  = ([], Ok "Error: Injection of 200000/1 exceeds max storage of 100/1!"%string).
Proof.
  apply (calculate_value_over_capacity iso_strptime stub_estimate stub_repr
           stub_float stub_repr small_store_fields
           200000 200000 0.02 0.10 0.05 100);
    reflexivity.
Defined.
